(** * nupic.tools: the repository client and the issue-comment handler

    A shallow embedding of the repository client (the [RepositoryClient]
    facade over the GitHub and Travis adapters) and of
    [webhooks/event-handlers/issue_comment.js], with the properties the
    specification states about them. *)

From stdpp Require Import base list strings gmap.
From Stdlib Require Import ZArith Ascii DecimalString.

Set Default Proof Using "Type".

(** ** The parts of underscore.js the client uses

  [_.contains], [_.uniq], [_.intersection] and [_.find], on arrays whose
  elements are compared with [===] (a decidable equality here). *)
Module Underscore.
Section underscore.
Context {A : Type} `{EqDecision A}.

(** [_.contains(list, value)], also the test [_.indexOf(list, value) >= 0]. *)
Definition contains (l : list A) (value : A) : bool := bool_decide (value ∈ l).

(** [_.uniq(array)]: one pass over [array], keeping a value when it is not
    among those [seen] so far; first occurrences survive, in order. *)
Fixpoint uniq_loop (seen array : list A) : list A :=
  match array with
  | [] => []
  | value :: rest =>
      if contains seen value then uniq_loop seen rest
      else value :: uniq_loop (seen ++ [value]) rest
  end.

Definition uniq (array : list A) : list A := uniq_loop [] array.

(** [_.intersection(array, other)]: the distinct values of [array] that
    occur in [other]. *)
Definition intersection (array other : list A) : list A :=
  filter (λ item, item ∈ other) (uniq array).

(** [_.find(list, predicate)]: the first element passing the test, or
    [undefined]. *)
Fixpoint find (predicate : A → bool) (l : list A) : option A :=
  match l with
  | [] => None
  | x :: rest => if predicate x then Some x else find predicate rest
  end.
End underscore.
End Underscore.

(** ** [arraysMatch] *)
Section arrays_match.
Context {A : Type} `{EqDecision A}.

Definition arraysMatch (left right : list A) : bool :=
  let sameValues := Underscore.intersection left right in
  (length sameValues =? length left) && (length sameValues =? length right).
End arrays_match.


(* ================================================================= *)
(** * Data *)

(** A JavaScript [Error] as the callbacks see it: a failure reported by a
    transport adapter (HTTP status), or an [Error] the client builds itself
    with [new Error(message)]. *)
Inductive Error : Type :=
| TransportError (status : nat)
| JsError (message : string).

(** An exception that escapes instead of reaching the completion callback. *)
Inductive Exception : Type :=
| TypeError (message : string).

(** What a caller observes of an asynchronous operation: its callback is
    invoked, [callback(err)] or [callback(null, data)], or an exception is
    thrown inside the adapter's callback and the completion callback is never
    invoked. *)
Inductive Outcome (A : Type) : Type :=
| Callback (args : Error + A)
| Throws (exn : Exception).
Arguments Callback {A} args.
Arguments Throws {A} exn.

(** [hook.config] of a webhook. *)
Record HookConfig : Type := { config_url : string }.

(** A webhook as [repos.getHooks] lists it; [hook.config] may be missing. *)
Record Hook : Type := {
  hook_id : nat;
  hook_name : string;
  hook_config : option HookConfig;
  hook_events : list string
}.

(** One page of a listing: the array of entries and the [meta] the adapter
    attaches to it, from which [getNextPage] finds the following page. *)
Record Page : Type := {
  page_items : list string;
  page_meta : string
}.

(** The answer of [repos.compareCommits]. *)
Record Comparison : Type := { behind_by : Z }.

(** A Travis build, and the answers of [travis.builds] and
    [travis.builds.restart]. *)
Record Build : Type := {
  build_id : N;
  build_pull_request_number : N
}.
Record BuildsResponse : Type := { builds : list Build }.
Record RestartResponse : Type := { result : bool }.

(** The fields of the client the modelled methods read. *)
Record RepositoryClient : Type := {
  org : string;
  repo : string
}.

(** A commit as [getLastCommitOnPullRequest] delivers it. *)
Record Committer : Type := { login : string }.
Record Commit : Type := {
  sha : string;
  committer : option Committer
}.

(** The payload of an [issue_comment] event: [payload.issue.number] and
    [payload.issue.pull_request], absent on a plain issue. *)
Record PullRequestLinks : Type := { html_url : string }.
Record Issue : Type := {
  number : N;
  pull_request : option PullRequestLinks
}.
Record Payload : Type := { issue : Issue }.

(** ** Remote calls

    Every request the client sends to an adapter, and the two calls the
    event handler makes into the rest of the application. *)
Inductive Call : Type :=
| ReposCompareCommits (user repo base head : string)
| PullRequestsGetAll (user repo state : string)
| ReposGetContributors (user repo : string)
| ReposGetCommits (user repo : string)
| GetNextPage (link : Page)
| ReposGetHooks (user repo : string)
| ReposDeleteHook (user repo : string) (id : nat)
| ReposCreateHook (user repo name url : string) (events : list string)
| TravisBuilds (slug event_type : string)
| TravisBuildsRestart (id : N)
| GetLastCommitOnPullRequest (prNumber : N)
| PerformCompleteValidation (sha login : string) (recheck : bool).

(** ** The remote world

    The webhooks registered at the hosting provider, the least id it has not
    given to a webhook yet, and the log of the calls issued so far, oldest
    first. *)
Record World : Type := {
  hooks : list Hook;
  next_hook_id : nat;
  calls : list Call
}.

(** The adapters' side of a run. Each answer may depend on the moment of the
    request, counted in calls issued before it, so that any sequence of
    answers and failures can be described. Webhook requests act on the
    [hooks] of the world unless [fault] makes them fail. A Travis listing
    answers [(err, response)] as the callback receives them. *)
Record Provider : Type := {
  fault : nat → Call → option Error;
  compare_answer : nat → Call → Error + Comparison;
  page_answer : nat → Call → Error + Page;
  builds_answer : nat → Call → option Error * option BuildsResponse;
  restart_answer : nat → Call → Error + RestartResponse
}.

(** Computations that talk to the remote world. *)
Definition M (A : Type) : Type := World → A * World.

#[global] Instance M_ret : MRet M := λ A a w, (a, w).
#[global] Instance M_bind : MBind M := λ A B f m w, let (a, w') := m w in f a w'.

Definition now (w : World) : nat := length (calls w).

Definition log (c : Call) (w : World) : World :=
  {| hooks := hooks w; next_hook_id := next_hook_id w; calls := calls w ++ [c] |}.

Definition set_hooks (hs : list Hook) (next : nat) (w : World) : World :=
  {| hooks := hs; next_hook_id := next; calls := calls w |}.

(** Issue a request whose answer does not depend on the webhooks. *)
Definition request {A : Type} (answer : nat → Call → A) (c : Call) : M A :=
  λ w, (answer (now w) c, log c w).

(** The id the provider gives to the next webhook: one it has never given,
    and above all ids in use. *)
Definition fresh_hook_id (w : World) : nat :=
  Nat.max (next_hook_id w) (S (foldr Nat.max 0 (hook_id <$> hooks w))).

(** [n + ''] for a non-negative integer. *)
Definition string_of_number (n : N) : string :=
  NilZero.string_of_uint (N.to_uint n).

(* ================================================================= *)
(** * The adapters *)

Section adapters.
Variable env : Provider.

(** [github.repos.compareCommits], [github.pullRequests.getAll],
    [github.repos.getContributors], [github.repos.getCommits] and
    [github.getNextPage]. *)
Definition github_repos_compareCommits (user repo base head : string)
  : M (Error + Comparison) :=
  request (compare_answer env) (ReposCompareCommits user repo base head).

Definition github_pullRequests_getAll (user repo state : string)
  : M (Error + Page) :=
  request (page_answer env) (PullRequestsGetAll user repo state).

Definition github_repos_getContributors (user repo : string) : M (Error + Page) :=
  request (page_answer env) (ReposGetContributors user repo).

Definition github_repos_getCommits (user repo : string) : M (Error + Page) :=
  request (page_answer env) (ReposGetCommits user repo).

Definition github_getNextPage (link : Page) : M (Error + Page) :=
  request (page_answer env) (GetNextPage link).

(** [github.repos.getHooks]: the webhooks registered at this moment. *)
Definition github_repos_getHooks (user repo : string) : M (Error + list Hook) :=
  λ w,
    let c := ReposGetHooks user repo in
    match fault env (now w) c with
    | Some err => (inl err, log c w)
    | None => (inr (hooks w), log c w)
    end.

(** [github.repos.deleteHook]: removes the webhook with that id; an unknown
    id is answered 404. A failed request leaves the webhooks as they were. *)
Definition github_repos_deleteHook (user repo : string) (id : nat)
  : M (Error + unit) :=
  λ w,
    let c := ReposDeleteHook user repo id in
    match fault env (now w) c with
    | Some err => (inl err, log c w)
    | None =>
        if bool_decide (id ∈ hook_id <$> hooks w)
        then (inr (), set_hooks (filter (λ h, hook_id h ≠ id) (hooks w))
                                (next_hook_id w) (log c w))
        else (inl (TransportError 404), log c w)
    end.

(** [github.repos.createHook]: registers a new webhook and answers it. *)
Definition github_repos_createHook (user repo name url : string)
    (events : list string) : M (Error + Hook) :=
  λ w,
    let c := ReposCreateHook user repo name url events in
    match fault env (now w) c with
    | Some err => (inl err, log c w)
    | None =>
        let data := {| hook_id := fresh_hook_id w;
                       hook_name := name;
                       hook_config := Some {| config_url := url |};
                       hook_events := events |} in
        (inr data, set_hooks (hooks w ++ [data]) (S (hook_id data)) (log c w))
    end.

(** [travis.builds] and [travis.builds.restart]. *)
Definition travis_builds (slug event_type : string)
  : M (option Error * option BuildsResponse) :=
  request (builds_answer env) (TravisBuilds slug event_type).

Definition travis_builds_restart (id : N) : M (Error + RestartResponse) :=
  request (restart_answer env) (TravisBuildsRestart id).

(** [async.parallel(tasks, callback)] for tasks that each send one request:
    every task is started, whatever the others answer, and the callback
    receives the error of a failed task, if any (here the first in the order
    of [tasks]). The world after it is the one where every request has been
    answered. *)
Fixpoint async_parallel (tasks : list (M (Error + unit))) : M (option Error) :=
  match tasks with
  | [] => mret None
  | task :: rest =>
      r ← task;
      err ← async_parallel rest;
      mret (match r with inl e => Some e | inr _ => err end)
  end.

(* ================================================================= *)
(** * [RepositoryClient] *)

Definition getRepoSlug (me : RepositoryClient) : string :=
  org me +:+ "/" +:+ repo me.

Definition isBehindMaster (me : RepositoryClient) (sha : string)
  : M (Error + bool * Z) :=
  r ← github_repos_compareCommits (org me) (repo me) "master" sha;
  match r with
  | inl err => mret (inl err)
  | inr data => mret (inr (0 <? behind_by data, behind_by data)%Z)
  end.

Definition getAllOpenPullRequests (me : RepositoryClient) : M (Error + Page) :=
  github_pullRequests_getAll (org me) (repo me) "open".

(** [_getRemainingPages(lastData, allDataOld, callback)]. The recursion ends
    only when a request for the next page fails; [fuel] bounds the number of
    pages requested, and [None] is the run that has not ended within it. *)
Fixpoint _getRemainingPages (fuel : nat) (lastData : Page)
    (allDataOld : option (list string)) : M (option (Error + list string)) :=
  match fuel with
  | 0 => mret None
  | S fuel =>
      let allData := [] in
      let allData :=
        match allDataOld with
        | Some old => allData ++ old
        | None => allData
        end in
      let allData := allData ++ page_items lastData in
      r ← github_getNextPage lastData;
      match r with
      | inl error => mret (Some (inr allData))
      | inr newData => _getRemainingPages fuel newData (Some allData)
      end
  end.

Definition getContributors (fuel : nat) (me : RepositoryClient)
  : M (option (Error + list string)) :=
  r ← github_repos_getContributors (org me) (repo me);
  match r with
  | inl err => mret (Some (inl err))
  | inr contributors => _getRemainingPages fuel contributors None
  end.

Definition getCommits (fuel : nat) (me : RepositoryClient)
  : M (option (Error + list string)) :=
  r ← github_repos_getCommits (org me) (repo me);
  match r with
  | inl err => mret (Some (inl err))
  | inr commits => _getRemainingPages fuel commits None
  end.

(** The test of the [forEach] in [confirmWebhookExists]:
    [hook.config && url == hook.config.url]. *)
Definition hook_has_url (url : string) (hook : Hook) : bool :=
  match hook_config hook with
  | Some config => String.eqb url (config_url config)
  | None => false
  end.

(** The function pushed on [hookRemovers] for a stale webhook. *)
Definition hookRemover (me : RepositoryClient) (hook : Hook) : M (Error + unit) :=
  github_repos_deleteHook (org me) (repo me) (hook_id hook).

(** One turn of the [forEach]: it updates [found] and [hookRemovers]. *)
Definition visit_hook (me : RepositoryClient) (url : string)
    (events : list string) (acc : bool * list (M (Error + unit))) (hook : Hook)
  : bool * list (M (Error + unit)) :=
  let (found, hookRemovers) := acc in
  if hook_has_url url hook then
    if arraysMatch (hook_events hook) events then (true, hookRemovers)
    else (found,
          hookRemovers ++ [hookRemover me hook])
  else (found, hookRemovers).

Definition confirmWebhookExists (me : RepositoryClient) (url : string)
    (events : list string) : M (Error + unit) :=
  r ← github_repos_getHooks (org me) (repo me);
  match r with
  | inl err => mret (inl err)
  | inr hooks =>
      let (found, hookRemovers) :=
        foldl (visit_hook me url events) (false, []) hooks in
      err ← async_parallel hookRemovers;
      match err with
      | Some err => mret (inl err)
      | None =>
          if negb found then
            r ← github_repos_createHook (org me) (repo me) "web" url events;
            match r with
            | inl err => mret (inl err)
            | inr data => mret (inr ())
            end
          else mret (inr ())
      end
  end.

Definition triggerTravisForPullRequest (me : RepositoryClient)
    (pull_request_number : N) : M (Outcome bool) :=
  '(err, response) ← travis_builds (getRepoSlug me) "pull_request";
  match response with
  | None => mret (Throws (TypeError "Cannot read property 'builds' of undefined"))
  | Some response =>
      let pr := Underscore.find
                  (λ build, (build_pull_request_number build =? pull_request_number)%N)
                  (builds response) in
      match pr with
      | None =>
          mret (Callback (inl (JsError ("No pull request with #"
                                        +:+ string_of_number pull_request_number))))
      | Some pr =>
          r ← travis_builds_restart (build_id pr);
          match r with
          | inl err => mret (Callback (inl err))
          | inr restartResp => mret (Callback (inr (result restartResp)))
          end
      end
  end.
End adapters.

(* ================================================================= *)
(** * The [issue_comment] event handler *)

Section issue_comment.
(** The handler receives the application's configuration and validators and
    hands them on untouched; the callback's data is whatever the validation
    reports, or nothing for [callback()]. *)
Context {Config Validator Report : Type}.

(** [repoClient.getLastCommitOnPullRequest] and
    [shaValidator.performCompleteValidation] are defined elsewhere in the
    application: the handler is modelled over any behaviour of the two. The
    first answers [(err, commit)]; the second is given the handler's own
    callback. *)
Variable getLastCommitOnPullRequest :
  RepositoryClient → N → M (option Error * option Commit).
Variable performCompleteValidation :
  string → string → RepositoryClient → list Validator → bool →
  M (Outcome (option Report)).

(** A call into the rest of the application, recorded in the log. *)
Definition invoke {A : Type} (c : Call) (m : M A) : M A := λ w, m (log c w).

Definition issueCommentHandler (payload : Payload) (config : Config)
    (repoClient : RepositoryClient) (validators : list Validator)
  : M (Outcome (option Report)) :=
  let prNumber := number (issue payload) in
  match pull_request (issue payload) with
  | None => mret (Callback (inr None))
  | Some _ =>
      '(err, commit) ← invoke (GetLastCommitOnPullRequest prNumber)
                         (getLastCommitOnPullRequest repoClient prNumber);
      match commit with
      | None => mret (Throws (TypeError "Cannot read property 'committer' of undefined"))
      | Some commit =>
          match committer commit with
          | None => mret (Throws (TypeError "Cannot read property 'login' of null"))
          | Some who =>
              invoke (PerformCompleteValidation (sha commit) (login who) true)
                (performCompleteValidation (sha commit) (login who)
                   repoClient validators true)
          end
      end
  end.
End issue_comment.

(* ================================================================= *)
(** * Notions used in the statements *)

(** A webhook for [url] that already has the wanted events, and one for
    [url] that does not: the two branches of the [forEach] in
    [confirmWebhookExists]. *)
Definition satisfied (url : string) (events : list string) (hook : Hook) : bool :=
  hook_has_url url hook && arraysMatch (hook_events hook) events.

Definition stale (url : string) (events : list string) (hook : Hook) : bool :=
  hook_has_url url hook && negb (arraysMatch (hook_events hook) events).

(** [following_pages env w p qs e w']: asked at [w] for the pages after [p],
    the provider answers the pages [qs], one request each, and then fails the
    next request with [e]; [w'] is the world after that last request. *)
Inductive following_pages (env : Provider)
  : World → Page → list Page → Error → World → Prop :=
| no_next_page w p e :
    page_answer env (now w) (GetNextPage p) = inl e →
    following_pages env w p [] e (log (GetNextPage p) w)
| next_page w p q qs e w' :
    page_answer env (now w) (GetNextPage p) = inr q →
    following_pages env (log (GetNextPage p) w) q qs e w' →
    following_pages env w p (q :: qs) e w'.

(** The entries of a sequence of pages, in order. *)
Definition entries (pages : list Page) : list string :=
  concat (page_items <$> pages).

(** The paginated fetches of the client, each with the request for its
    first page. *)
Definition paginated_fetches (env : Provider) (me : RepositoryClient)
  : list ((nat → RepositoryClient → M (option (Error + list string))) * Call) :=
  [ (getContributors env, ReposGetContributors (org me) (repo me));
    (getCommits env, ReposGetCommits (org me) (repo me)) ].

(* ================================================================= *)
(** * Sample worlds and providers *)

Definition nupic : RepositoryClient := {| org := "numenta"; repo := "nupic" |}.

Definition fresh_world : World := {| hooks := []; next_hook_id := 1; calls := [] |}.

(** A provider that never fails a webhook request, reports every commit level
    with master, has no further page of any listing and no build. *)
Definition quiet : Provider := {|
  fault := λ _ _, None;
  compare_answer := λ _ _, inr {| behind_by := 0 |};
  page_answer := λ _ _, inl (JsError "No next page found");
  builds_answer := λ _ _, (None, Some {| builds := [] |});
  restart_answer := λ _ _, inr {| result := true |}
|}.

(** The same, with the Travis listing failing: an error and no response. *)
Definition travis_down : Provider := {|
  fault := fault quiet;
  compare_answer := compare_answer quiet;
  page_answer := page_answer quiet;
  builds_answer := λ _ _, (Some (TransportError 503), None);
  restart_answer := restart_answer quiet
|}.

(** The same as [quiet], with two builds for pull request 7 and one for 9. *)
Definition three_builds : list Build :=
  [ {| build_id := 41; build_pull_request_number := 9 |};
    {| build_id := 42; build_pull_request_number := 7 |};
    {| build_id := 43; build_pull_request_number := 7 |} ].

Definition travis_up : Provider := {|
  fault := fault quiet;
  compare_answer := compare_answer quiet;
  page_answer := page_answer quiet;
  builds_answer := λ _ _, (None, Some {| builds := three_builds |});
  restart_answer := restart_answer quiet
|}.

(** A listing of two pages; the request after the second page fails. *)
Definition page1 : Page := {| page_items := ["a"; "b"]; page_meta := "page=2" |}.
Definition page2 : Page := {| page_items := ["c"]; page_meta := "" |}.

Definition two_pages : Provider := {|
  fault := fault quiet;
  compare_answer := compare_answer quiet;
  page_answer := λ _ c,
    match c with
    | GetNextPage p =>
        if String.eqb (page_meta p) "page=2" then inr page2
        else inl (TransportError 502)
    | _ => inr page1
    end;
  builds_answer := builds_answer quiet;
  restart_answer := restart_answer quiet
|}.

(** A listing whose first page cannot be fetched. *)
Definition no_pages : Provider := {|
  fault := fault quiet;
  compare_answer := compare_answer quiet;
  page_answer := λ _ _, inl (TransportError 500);
  builds_answer := builds_answer quiet;
  restart_answer := restart_answer quiet
|}.

(** A provider that fails every deletion of a webhook. *)
Definition undeletable : Provider := {|
  fault := λ _ c, match c with
                  | ReposDeleteHook _ _ _ => Some (TransportError 500)
                  | _ => None
                  end;
  compare_answer := compare_answer quiet;
  page_answer := page_answer quiet;
  builds_answer := builds_answer quiet;
  restart_answer := restart_answer quiet
|}.

(** Webhooks for the examples. *)
Definition push_hook (id : nat) (events : list string) : Hook := {|
  hook_id := id;
  hook_name := "web";
  hook_config := Some {| config_url := "http://tools/hook" |};
  hook_events := events
|}.

Definition world_of (hs : list Hook) (next : nat) : World :=
  {| hooks := hs; next_hook_id := next; calls := [] |}.

Definition tools_url : string := "http://tools/hook".

(** Two webhooks for the tools URL, both with the events [push] already. *)
Definition twice_registered : World :=
  world_of [push_hook 1 ["push"]; push_hook 2 ["push"]] 3.

(** Two webhooks for the tools URL with other events than the wanted ones. *)
Definition outdated : World :=
  world_of [push_hook 1 ["push"]; push_hook 2 ["status"]] 3.

(* ================================================================= *)
(** * More of the client and of the statements *)

(** [RepositoryClient.prototype.toString]. *)
Definition toString (me : RepositoryClient) : string := getRepoSlug me.

(** Whether a name contains the separator of a slug. *)
Fixpoint has_slash (s : string) : bool :=
  match s with
  | EmptyString => false
  | String c rest => Ascii.eqb c "/"%char || has_slash rest
  end.

(** The webhook [createHook] registers in [w] for [confirmWebhookExists]. *)
Definition created_hook (url : string) (events : list string) (w : World) : Hook :=
  {| hook_id := fresh_hook_id w;
     hook_name := "web";
     hook_config := Some {| config_url := url |};
     hook_events := events |}.

(** A provider that fails the creation of a webhook, and one that fails the
    listing of webhooks. *)
Definition uncreatable : Provider := {|
  fault := λ _ c, match c with
                  | ReposCreateHook _ _ _ _ _ => Some (TransportError 422)
                  | _ => None
                  end;
  compare_answer := compare_answer quiet;
  page_answer := page_answer quiet;
  builds_answer := builds_answer quiet;
  restart_answer := restart_answer quiet
|}.

Definition unlistable : Provider := {|
  fault := λ _ c, match c with
                  | ReposGetHooks _ _ => Some (TransportError 401)
                  | _ => None
                  end;
  compare_answer := compare_answer quiet;
  page_answer := page_answer quiet;
  builds_answer := builds_answer quiet;
  restart_answer := restart_answer quiet
|}.

(** A listing that always has one more page. *)
Definition endless : Provider := {|
  fault := fault quiet;
  compare_answer := compare_answer quiet;
  page_answer := λ _ _, inr page1;
  builds_answer := builds_answer quiet;
  restart_answer := restart_answer quiet
|}.

(** A webhook of another service, and a world with it beside a stale webhook
    for the tools URL. *)
Definition other_hook : Hook := {|
  hook_id := 5;
  hook_name := "web";
  hook_config := Some {| config_url := "http://ci/notify" |};
  hook_events := ["push"]
|}.


(* ================================================================= *)
(** * Properties *)


(** A filter keeps a list whose elements all pass. *)
Lemma filter_all {A : Type} (P : A → Prop) `{∀ x, Decision (P x)} (l : list A) :
  (∀ x, x ∈ l → P x) → filter P l = l.
Proof.
  induction l as [|x l IH]; intros Hall; [done|].
  rewrite filter_cons_True by (apply Hall; left).
  f_equal. apply IH. intros y Hy. apply Hall. by right.
Qed.

Section underscore_facts.
Context {A : Type} `{EqDecision A}.
Implicit Types l r seen : list A.

Lemma contains_spec l x : Underscore.contains l x = true ↔ x ∈ l.
Proof. unfold Underscore.contains. by rewrite bool_decide_eq_true. Qed.

Lemma elem_of_uniq_loop seen l x :
  x ∈ Underscore.uniq_loop seen l ↔ x ∈ l ∧ x ∉ seen.
Proof.
  revert seen. induction l as [|y l IH]; intros seen; simpl.
  - split; [by intros ?%elem_of_nil | by intros [?%elem_of_nil _]].
  - destruct (Underscore.contains seen y) eqn:Hc.
    + apply contains_spec in Hc. rewrite IH, elem_of_cons.
      split; [tauto|]. intros [[->|?] ?]; tauto.
    + assert (y ∉ seen) by (rewrite <-contains_spec; congruence).
      rewrite !elem_of_cons, IH, elem_of_app, list_elem_of_singleton.
      split.
      * intros [->|(? & ?)]; tauto.
      * intros [[->|?] ?]; [tauto|].
        destruct (decide (x = y)) as [->|]; tauto.
Qed.

Lemma NoDup_uniq_loop seen l : NoDup (Underscore.uniq_loop seen l).
Proof.
  revert seen. induction l as [|y l IH]; intros seen; simpl.
  - constructor.
  - destruct (Underscore.contains seen y); [done|].
    apply NoDup_cons. split; [|done].
    rewrite elem_of_uniq_loop, elem_of_app, list_elem_of_singleton. tauto.
Qed.

Lemma uniq_loop_NoDup seen l :
  NoDup l → (∀ x, x ∈ l → x ∉ seen) → Underscore.uniq_loop seen l = l.
Proof.
  revert seen. induction l as [|y l IH]; intros seen Hnd Hseen; [done|].
  apply NoDup_cons in Hnd as [Hy Hnd]. simpl.
  destruct (Underscore.contains seen y) eqn:Hc.
  - apply contains_spec in Hc. destruct (Hseen y); [left|done].
  - f_equal. apply IH; [done|]. intros x Hx.
    rewrite elem_of_app, list_elem_of_singleton.
    intros [?| ->]; [|done]. by apply (Hseen x); [right|].
Qed.

Lemma elem_of_uniq l x : x ∈ Underscore.uniq l ↔ x ∈ l.
Proof.
  unfold Underscore.uniq. rewrite elem_of_uniq_loop.
  split; [tauto|]. intros ?; split; [done|apply not_elem_of_nil].
Qed.

Lemma NoDup_uniq l : NoDup (Underscore.uniq l).
Proof. apply NoDup_uniq_loop. Qed.

Lemma uniq_NoDup l : NoDup l → Underscore.uniq l = l.
Proof. intros. apply uniq_loop_NoDup; [done|]. intros; apply not_elem_of_nil. Qed.

Lemma elem_of_intersection l r x :
  x ∈ Underscore.intersection l r ↔ x ∈ l ∧ x ∈ r.
Proof.
  unfold Underscore.intersection.
  rewrite list_elem_of_filter, elem_of_uniq. tauto.
Qed.

Lemma NoDup_intersection l r : NoDup (Underscore.intersection l r).
Proof. apply NoDup_filter, NoDup_uniq. Qed.

(** The comparison holds exactly for two duplicate-free arrays that are
    rearrangements of each other. *)
Lemma arraysMatch_true l r :
  arraysMatch l r = true ↔ NoDup l ∧ l ≡ₚ r.
Proof.
  unfold arraysMatch; cbv zeta.
  rewrite andb_true_iff, !Nat.eqb_eq.
  pose proof (NoDup_intersection l r) as Hnd.
  split.
  - intros [Hl Hr].
    assert (Underscore.intersection l r ≡ₚ l) as Hpl.
    { apply submseteq_length_Permutation; [|lia].
      apply NoDup_submseteq; [done|]. intros x. rewrite elem_of_intersection. tauto. }
    assert (Underscore.intersection l r ≡ₚ r) as Hpr.
    { apply submseteq_length_Permutation; [|lia].
      apply NoDup_submseteq; [done|]. intros x. rewrite elem_of_intersection. tauto. }
    split; [by rewrite <-Hpl | by rewrite <-Hpl].
  - intros [Hl Hp].
    assert (Underscore.intersection l r = l) as ->.
    { unfold Underscore.intersection. rewrite uniq_NoDup by done.
      apply filter_all. intros x Hx. by rewrite <-Hp. }
    split; [done|]. by rewrite Hp.
Qed.
End underscore_facts.

Section arrays_match_facts.
Context {A : Type} `{Countable A}.
Implicit Types l r : list A.

Lemma arraysMatch_sym l r : arraysMatch l r = arraysMatch r l.
Proof.
  apply eq_true_iff_eq. rewrite !arraysMatch_true.
  split; intros [Hnd Hp]; (split; [by rewrite <-Hp | done]).
Qed.

Lemma arraysMatch_perm l l' r r' :
  l ≡ₚ l' → r ≡ₚ r' → arraysMatch l r = arraysMatch l' r'.
Proof.
  intros Hl Hr. apply eq_true_iff_eq. rewrite !arraysMatch_true.
  by rewrite Hl, Hr.
Qed.

Lemma same_set_elem_of l r :
  list_to_set l =@{gset A} list_to_set r ↔ ∀ x, x ∈ l ↔ x ∈ r.
Proof.
  split.
  - intros Heq x. by rewrite <-!(elem_of_list_to_set (C:=gset A)), Heq.
  - intros Hx. apply set_eq. intros x. by rewrite !elem_of_list_to_set.
Qed.

Lemma arraysMatch_set l r :
  arraysMatch l r = true ↔
  NoDup l ∧ NoDup r ∧ list_to_set l =@{gset A} list_to_set r.
Proof.
  rewrite arraysMatch_true, same_set_elem_of. split.
  - intros [Hnd Hp]. split; [done|]. split; [by rewrite <-Hp|].
    intros x. by rewrite Hp.
  - intros (Hl & Hr & Hx). split; [done|]. by apply NoDup_Permutation.
Qed.

(** C10, as amended. [arraysMatch] is symmetric and does not depend on the
    order of either array; it is true exactly for two duplicate-free arrays
    with the same set of values. So on duplicate-free arrays it is set
    equality; on arrays with equal value sets it agrees with set equality
    only when both are duplicate-free; and an array with a repeated element
    does not match itself. *)
Theorem arraysMatch_set_equality_without_duplicates l r :
  arraysMatch l r = arraysMatch r l
  ∧ (∀ l' r', l ≡ₚ l' → r ≡ₚ r' → arraysMatch l r = arraysMatch l' r')
  ∧ (arraysMatch l r = true ↔
       NoDup l ∧ NoDup r ∧ list_to_set l =@{gset A} list_to_set r)
  ∧ (NoDup l → NoDup r →
       (arraysMatch l r = true ↔ list_to_set l =@{gset A} list_to_set r))
  ∧ (list_to_set l =@{gset A} list_to_set r →
       (arraysMatch l r = true ↔ NoDup l ∧ NoDup r))
  ∧ (¬ NoDup l → arraysMatch l l = false).
Proof.
  split; [apply arraysMatch_sym|].
  split; [intros l' r'; apply arraysMatch_perm|].
  split; [apply arraysMatch_set|].
  split; [|split].
  - intros Hl Hr. rewrite arraysMatch_set. tauto.
  - intros Hs. rewrite arraysMatch_set. tauto.
  - intros Hnd. apply not_true_is_false. rewrite arraysMatch_set. tauto.
Qed.
End arrays_match_facts.

(** The events [push, push] do not match themselves, although
    [push, status] and [status, push] match. *)
Lemma arraysMatch_set_equality_without_duplicates_witness :
  arraysMatch ["push"; "push"] ["push"; "push"] = false
  ∧ (arraysMatch ["push"; "status"] ["status"; "push"] = true ↔
       list_to_set ["push"; "status"] =@{gset string} list_to_set ["status"; "push"]).
Proof.
  destruct (arraysMatch_set_equality_without_duplicates
              ["push"; "push"] ["push"; "push"]) as (_ & _ & _ & _ & _ & Hrefl).
  destruct (arraysMatch_set_equality_without_duplicates
              ["push"; "status"] ["status"; "push"]) as (_ & _ & _ & Hset & _ & _).
  split.
  - apply Hrefl. intros Hnd. apply NoDup_cons in Hnd as [Hin _].
    apply Hin. left.
  - apply Hset; apply (bool_decide_unpack _); vm_compute; exact I.
Defined.

(** C10 says that the comparison agrees with set equality exactly when both
    arrays are duplicate-free. On [a; a] and [b] the two agree, both being
    false, although [a; a] repeats a value: the agreement does not need
    duplicate-free arrays when the value sets differ. *)
Lemma arraysMatch_agrees_with_set_equality_despite_repeat :
  (arraysMatch ["a"; "a"] ["b"] = true ↔
     list_to_set ["a"; "a"] =@{gset string} list_to_set ["b"])
  ∧ arraysMatch ["a"; "a"] ["b"] = false
  ∧ list_to_set ["a"; "a"] ≠@{gset string} list_to_set ["b"]
  ∧ ¬ (NoDup ["a"; "a"] ∧ NoDup ["b"]).
Proof.
  assert (list_to_set ["a"; "a"] ≠@{gset string} list_to_set ["b"]) as Hsets.
  { intros Heq.
    assert ("a" ∈@{gset string} list_to_set ["b"]) as Hin
      by (rewrite <-Heq; apply elem_of_list_to_set; left).
    apply elem_of_list_to_set, list_elem_of_singleton in Hin. discriminate. }
  assert (arraysMatch ["a"; "a"] ["b"] = false) as Hfalse by reflexivity.
  split; [|split; [done|split; [done|]]].
  - rewrite Hfalse. split; [done|]. intros Heq. by destruct Hsets.
  - intros [Hnd _]. apply NoDup_cons in Hnd as [Hin _]. apply Hin. left.
Qed.

(* ================================================================= *)
(** * [isBehindMaster] *)

(** C8. [isBehindMaster] sends one comparison of [sha] against master. On an
    answer it delivers the reported distance and a boolean that is true
    exactly when that distance is positive; when the distance is 0, as for
    the tip of master, it delivers [false] and 0; on a failed comparison it
    delivers the error. *)
Theorem isBehindMaster_behind_iff_positive_distance
    (env : Provider) (me : RepositoryClient) (sha : string) (w : World) :
  let c := ReposCompareCommits (org me) (repo me) "master" sha in
  (∀ data, compare_answer env (now w) c = inr data →
     ∃ behind, isBehindMaster env me sha w = (inr (behind, behind_by data), log c w)
               ∧ (behind = true ↔ (0 < behind_by data)%Z))
  ∧ (∀ data, compare_answer env (now w) c = inr data → behind_by data = 0%Z →
     isBehindMaster env me sha w = (inr (false, 0%Z), log c w))
  ∧ (∀ err, compare_answer env (now w) c = inl err →
     isBehindMaster env me sha w = (inl err, log c w)).
Proof.
  intros c. unfold isBehindMaster, github_repos_compareCommits, request.
  unfold mbind, M_bind, mret, M_ret. fold c.
  repeat split.
  - intros data ->. eexists. split; [reflexivity|]. apply Z.ltb_lt.
  - intros data -> Hz. by rewrite Hz.
  - by intros err ->.
Qed.

Lemma isBehindMaster_behind_iff_positive_distance_witness :
  isBehindMaster quiet nupic "0f3a" fresh_world
  = (inr (false, 0%Z),
     log (ReposCompareCommits "numenta" "nupic" "master" "0f3a") fresh_world).
Proof.
  destruct (isBehindMaster_behind_iff_positive_distance quiet nupic "0f3a" fresh_world)
    as (_ & Htip & _).
  apply (Htip {| behind_by := 0 |}); reflexivity.
Defined.

(* ================================================================= *)
(** * The [issue_comment] handler *)

(** C7. For a comment on a plain issue (no pull request attached) the
    handler invokes its callback without an error and leaves the world as it
    was: no request is sent, and neither the repository client nor the
    validation is called, whatever these two would do. *)
Theorem issueCommentHandler_plain_issue_is_noop
    {Config Validator Report : Type}
    (getLastCommitOnPullRequest :
       RepositoryClient → N → M (option Error * option Commit))
    (performCompleteValidation :
       string → string → RepositoryClient → list Validator → bool →
       M (Outcome (option Report)))
    (payload : Payload) (config : Config) (repoClient : RepositoryClient)
    (validators : list Validator) (w : World) :
  pull_request (issue payload) = None →
  issueCommentHandler getLastCommitOnPullRequest performCompleteValidation
    payload config repoClient validators w
  = (Callback (inr None), w).
Proof. intros Hplain. unfold issueCommentHandler. by rewrite Hplain. Qed.

Lemma issueCommentHandler_plain_issue_is_noop_witness :
  issueCommentHandler (Report := unit)
    (λ _ _ w, ((None, None), log (ReposGetCommits "numenta" "nupic") w))
    (λ _ _ _ (_ : list unit) _ w, (Callback (inr None), w))
    {| issue := {| number := 12; pull_request := None |} |} () nupic [] fresh_world
  = (Callback (inr None), fresh_world).
Proof. by apply issueCommentHandler_plain_issue_is_noop. Defined.

(* ================================================================= *)
(** * [triggerTravisForPullRequest] *)

Section travis_facts.
Variable env : Provider.
Implicit Types (me : RepositoryClient) (w : World) (bs : list Build).

Lemma find_none {A : Type} (p : A → bool) (l : list A) :
  Underscore.find p l = None ↔ ∀ x, x ∈ l → p x = false.
Proof.
  induction l as [|y l IH]; simpl.
  - split; [by intros _ x ?%elem_of_nil | done].
  - destruct (p y) eqn:Hy.
    + split; [done|]. intros Hall. rewrite Hall in Hy by left. done.
    + rewrite IH. split.
      * intros Hall x [->|?]%elem_of_cons; auto.
      * intros Hall x ?. apply Hall. by right.
Qed.

(** [_.find] answers the first element passing the test. *)
Lemma find_some {A : Type} (p : A → bool) (l : list A) (x : A) :
  Underscore.find p l = Some x →
  ∃ before after, l = before ++ x :: after ∧ p x = true
                  ∧ ∀ y, y ∈ before → p y = false.
Proof.
  induction l as [|y l IH]; simpl; [done|].
  destruct (p y) eqn:Hy.
  - intros [= ->]. exists [], l. split; [done|]. split; [done|].
    by intros ? ?%elem_of_nil.
  - intros (before & after & -> & Hx & Hb)%IH.
    exists (y :: before), after. split; [done|]. split; [done|].
    intros z [->|?]%elem_of_cons; auto.
Qed.

Lemma triggerTravis_unfold me n w :
  triggerTravisForPullRequest env me n w =
  let c := TravisBuilds (getRepoSlug me) "pull_request" in
  match snd (builds_answer env (now w) c) with
  | None =>
      (Throws (TypeError "Cannot read property 'builds' of undefined"), log c w)
  | Some response =>
      match Underscore.find (λ build, (build_pull_request_number build =? n)%N)
              (builds response) with
      | None =>
          (Callback (inl (JsError ("No pull request with #" +:+ string_of_number n))),
           log c w)
      | Some pr =>
          let c' := TravisBuildsRestart (build_id pr) in
          (match restart_answer env (now (log c w)) c' with
           | inl err => Callback (inl err)
           | inr restartResp => Callback (inr (result restartResp))
           end, log c' (log c w))
      end
  end.
Proof.
  unfold triggerTravisForPullRequest, travis_builds, travis_builds_restart, request.
  unfold mbind, M_bind, mret, M_ret. cbv zeta.
  destruct (builds_answer env _ _) as [err [response|]]; simpl; [|done].
  destruct (Underscore.find _ _) as [pr|]; [|done].
  by destruct (restart_answer env _ _).
Qed.
End travis_facts.

(** C4. When the listing of pull-request builds is answered with a response:
    if no listed build has pull-request number [n], the callback receives the
    error "No pull request with #n" and no restart is requested; otherwise
    one restart is requested, for the first listed build with that number,
    and the callback receives the restart's error, or on success the
    [result] of its answer. *)
Theorem triggerTravisForPullRequest_not_found_or_one_restart
    (env : Provider) (me : RepositoryClient) (n : N) (w : World)
    (err : option Error) (response : BuildsResponse) :
  let c := TravisBuilds (getRepoSlug me) "pull_request" in
  builds_answer env (now w) c = (err, Some response) →
  ((∀ build, build ∈ builds response → build_pull_request_number build ≠ n) →
     triggerTravisForPullRequest env me n w
     = (Callback (inl (JsError ("No pull request with #" +:+ string_of_number n))),
        log c w))
  ∧ ((∃ build, build ∈ builds response ∧ build_pull_request_number build = n) →
     ∃ before pr after,
       builds response = before ++ pr :: after
       ∧ build_pull_request_number pr = n
       ∧ (∀ build, build ∈ before → build_pull_request_number build ≠ n)
       ∧ calls (snd (triggerTravisForPullRequest env me n w))
         = calls w ++ [c; TravisBuildsRestart (build_id pr)]
       ∧ (∀ restartResp,
            restart_answer env (now (log c w)) (TravisBuildsRestart (build_id pr))
            = inr restartResp →
            fst (triggerTravisForPullRequest env me n w)
            = Callback (inr (result restartResp)))
       ∧ (∀ e,
            restart_answer env (now (log c w)) (TravisBuildsRestart (build_id pr))
            = inl e →
            fst (triggerTravisForPullRequest env me n w) = Callback (inl e))).
Proof.
  intros c Hanswer. rewrite triggerTravis_unfold. subst c. cbv zeta.
  rewrite Hanswer. simpl.
  split.
  - intros Hnone.
    assert (Underscore.find (λ build, (build_pull_request_number build =? n)%N)
              (builds response) = None) as ->; [|done].
    apply find_none. intros build Hin. apply N.eqb_neq. by apply Hnone.
  - intros (build & Hin & Hn).
    destruct (Underscore.find _ _) as [pr|] eqn:Hfind.
    + apply find_some in Hfind as (before & after & Hsplit & Hpr & Hbefore).
      exists before, pr, after. apply N.eqb_eq in Hpr.
      split; [done|]. split; [done|].
      split; [by intros b ?%Hbefore%N.eqb_neq|].
      split; [simpl; by rewrite <-app_assoc|].
      split; [by intros restartResp ->|by intros e ->].
    + rewrite find_none in Hfind. specialize (Hfind build Hin).
      apply N.eqb_neq in Hfind. done.
Qed.

(** With builds 41 (for #9), 42 and 43 (both for #7): pull request 7
    restarts build 42 alone, and pull request 8 is not found. *)
Lemma triggerTravisForPullRequest_not_found_or_one_restart_witness :
  triggerTravisForPullRequest travis_up nupic 8 fresh_world
  = (Callback (inl (JsError "No pull request with #8")),
     log (TravisBuilds "numenta/nupic" "pull_request") fresh_world)
  ∧ ∃ before pr after,
      three_builds = before ++ pr :: after
      ∧ build_pull_request_number pr = 7%N
      ∧ calls (snd (triggerTravisForPullRequest travis_up nupic 7 fresh_world))
        = [TravisBuilds "numenta/nupic" "pull_request";
           TravisBuildsRestart (build_id pr)]
      ∧ fst (triggerTravisForPullRequest travis_up nupic 7 fresh_world)
        = Callback (inr true).
Proof.
  split.
  - apply (triggerTravisForPullRequest_not_found_or_one_restart
             travis_up nupic 8 fresh_world None {| builds := three_builds |});
      [reflexivity|].
    intros build Hin. apply (bool_decide_unpack _).
    revert build Hin. apply Forall_forall. apply (bool_decide_unpack _).
    vm_compute. exact I.
  - destruct (triggerTravisForPullRequest_not_found_or_one_restart
                travis_up nupic 7 fresh_world None {| builds := three_builds |}
                eq_refl) as [_ Hsome].
    destruct Hsome as (before & pr & after & Hsplit & Hpr & _ & Hcalls & Hok & _).
    + exists {| build_id := 42; build_pull_request_number := 7 |}.
      split; [|reflexivity]. right. left.
    + exists before, pr, after. split; [done|]. split; [done|].
      split; [done|]. by apply (Hok {| result := true |}).
Defined.

(** C9. [triggerTravisForPullRequest] does not look at the error of the
    build listing: two providers whose listings differ only in that error
    give the same run. When the listing fails with no response, reading
    [response.builds] throws; the completion callback is not invoked, so the
    failure does not reach it as an error, and only the listing request has
    been sent. *)
Theorem triggerTravisForPullRequest_ignores_listing_error
    (env : Provider) (me : RepositoryClient) (n : N) (w : World) :
  let c := TravisBuilds (getRepoSlug me) "pull_request" in
  (∀ env' : Provider,
     (∀ t c, snd (builds_answer env' t c) = snd (builds_answer env t c)) →
     (∀ t c, restart_answer env' t c = restart_answer env t c) →
     triggerTravisForPullRequest env' me n w = triggerTravisForPullRequest env me n w)
  ∧ (∀ err, builds_answer env (now w) c = (err, None) →
       triggerTravisForPullRequest env me n w
       = (Throws (TypeError "Cannot read property 'builds' of undefined"), log c w)
       ∧ ∀ args, fst (triggerTravisForPullRequest env me n w) ≠ Callback args).
Proof.
  intros c. split.
  - intros env' Hbuilds Hrestart. rewrite !triggerTravis_unfold. cbv zeta.
    rewrite Hbuilds.
    destruct (snd (builds_answer env _ _)) as [response|]; [|done].
    destruct (Underscore.find _ _) as [pr|]; [|done].
    by rewrite Hrestart.
  - intros err Hanswer. rewrite triggerTravis_unfold. subst c. cbv zeta.
    rewrite Hanswer. simpl. split; [by eexists|]. done.
Qed.

Lemma triggerTravisForPullRequest_ignores_listing_error_witness :
  triggerTravisForPullRequest travis_down nupic 7 fresh_world
  = (Throws (TypeError "Cannot read property 'builds' of undefined"),
     log (TravisBuilds "numenta/nupic" "pull_request") fresh_world).
Proof.
  destruct (triggerTravisForPullRequest_ignores_listing_error
              travis_down nupic 7 fresh_world) as [_ Hthrows].
  destruct (Hthrows (Some (TransportError 503)) eq_refl) as [Hrun _].
  exact Hrun.
Defined.

(* ================================================================= *)
(** * Paginated listings *)

Section pages_facts.
Variable env : Provider.
Implicit Types (me : RepositoryClient) (w : World) (p q : Page)
  (qs : list Page) (old : option (list string)).

Lemma getRemainingPages_step fuel p old w :
  _getRemainingPages env (S fuel) p old w =
  match page_answer env (now w) (GetNextPage p) with
  | inl _ => (Some (inr (default [] old ++ page_items p)), log (GetNextPage p) w)
  | inr q =>
      _getRemainingPages env fuel q (Some (default [] old ++ page_items p))
        (log (GetNextPage p) w)
  end.
Proof.
  simpl. unfold github_getNextPage, request, mbind, M_bind, mret, M_ret.
  destruct old as [old|]; by destruct (page_answer env _ _).
Qed.

(** With enough fuel the aggregation ends at the first failed request and
    delivers everything gathered until then. *)
Lemma getRemainingPages_run w p qs e w' :
  following_pages env w p qs e w' →
  ∀ old fuel, length qs < fuel →
    _getRemainingPages env fuel p old w
    = (Some (inr (default [] old ++ entries (p :: qs))), w').
Proof.
  induction 1 as [w p e Hanswer|w p q qs e w' Hanswer _ IH];
    intros old [|fuel] Hfuel; simpl in Hfuel; try lia;
    rewrite getRemainingPages_step, Hanswer.
  - unfold entries. simpl. by rewrite app_nil_r.
  - rewrite IH by lia. unfold entries. simpl. by rewrite <-app_assoc.
Qed.

(** A run that ends has ended that way: it never delivers an error. *)
Lemma getRemainingPages_ended fuel p old w r w' :
  _getRemainingPages env fuel p old w = (Some r, w') →
  ∃ qs e, following_pages env w p qs e w'
          ∧ r = inr (default [] old ++ entries (p :: qs)).
Proof.
  revert p old w. induction fuel as [|fuel IH]; intros p old w; [done|].
  rewrite getRemainingPages_step.
  destruct (page_answer env (now w) (GetNextPage p)) as [e|q] eqn:Hanswer.
  - intros [= <- <-]. exists [], e. split; [by constructor|].
    unfold entries. simpl. by rewrite app_nil_r.
  - intros (qs & e & Hpages & ->)%IH. exists (q :: qs), e.
    split; [by econstructor|]. unfold entries. simpl. by rewrite <-app_assoc.
Qed.

Lemma length_entries (pages : list Page) :
  length (entries pages) = sum_list (length ∘ page_items <$> pages).
Proof.
  unfold entries. induction pages as [|p pages IH]; [done|].
  rewrite !fmap_cons. simpl. rewrite length_app. by f_equal.
Qed.

Lemma getContributors_unfold fuel me w :
  getContributors env fuel me w =
  let c := ReposGetContributors (org me) (repo me) in
  match page_answer env (now w) c with
  | inl err => (Some (inl err), log c w)
  | inr p => _getRemainingPages env fuel p None (log c w)
  end.
Proof.
  unfold getContributors, github_repos_getContributors, request.
  unfold mbind, M_bind, mret, M_ret. simpl.
  by destruct (page_answer env _ _).
Qed.

Lemma getCommits_unfold fuel me w :
  getCommits env fuel me w =
  let c := ReposGetCommits (org me) (repo me) in
  match page_answer env (now w) c with
  | inl err => (Some (inl err), log c w)
  | inr p => _getRemainingPages env fuel p None (log c w)
  end.
Proof.
  unfold getCommits, github_repos_getCommits, request.
  unfold mbind, M_bind, mret, M_ret. simpl.
  by destruct (page_answer env _ _).
Qed.
End pages_facts.

(** C5. When the first page [p] of contributors (or of commits) is answered
    and the provider then answers the pages [qs] before failing a request,
    the fetch, given fuel for those requests, delivers the entries of
    [p :: qs] concatenated in order, as many as the pages hold together; and a
    fetch that delivers entries at all has delivered those of the pages
    answered before the first failed request. *)
Theorem paginated_fetch_concatenates_pages
    (env : Provider) (me : RepositoryClient) (w : World) :
  ∀ fetch c, (fetch, c) ∈ paginated_fetches env me →
  ∀ p, page_answer env (now w) c = inr p →
    (∀ qs e w', following_pages env (log c w) p qs e w' →
       ∀ fuel, length qs < fuel →
         fetch fuel me w = (Some (inr (entries (p :: qs))), w')
         ∧ length (entries (p :: qs))
           = sum_list (length ∘ page_items <$> p :: qs))
    ∧ (∀ fuel items w', fetch fuel me w = (Some (inr items), w') →
       ∃ qs e, following_pages env (log c w) p qs e w'
               ∧ items = entries (p :: qs)
               ∧ length items = sum_list (length ∘ page_items <$> p :: qs)).
Proof.
  intros fetch c Hfetch p Hfirst.
  assert (∀ fuel, fetch fuel me w = _getRemainingPages env fuel p None (log c w))
    as Hrun.
  { intros fuel. unfold paginated_fetches in Hfetch.
    apply elem_of_cons in Hfetch as [[= -> ->]|Hfetch].
    - rewrite getContributors_unfold. cbv zeta. by rewrite Hfirst.
    - apply list_elem_of_singleton in Hfetch as [= -> ->].
      rewrite getCommits_unfold. cbv zeta. by rewrite Hfirst. }
  split.
  - intros qs e w' Hpages fuel Hfuel. split; [|apply length_entries].
    rewrite Hrun. by rewrite (getRemainingPages_run env _ _ _ _ _ Hpages).
  - intros fuel items w'. rewrite Hrun.
    intros (qs & e & Hpages & [= ->])%getRemainingPages_ended.
    exists qs, e. split; [done|]. split; [done|]. apply length_entries.
Qed.

Lemma two_pages_follow (c : Call) :
  following_pages two_pages (log c fresh_world) page1 [page2] (TransportError 502)
    (log (GetNextPage page2) (log (GetNextPage page1) (log c fresh_world))).
Proof.
  apply next_page; [reflexivity|]. apply no_next_page. reflexivity.
Qed.

(** Two pages, [a; b] and [c]: the contributors are [a; b; c]. *)
Lemma paginated_fetch_concatenates_pages_witness :
  fst (getContributors two_pages 2 nupic fresh_world) = Some (inr ["a"; "b"; "c"])
  ∧ length ["a"; "b"; "c"] = 2 + (1 + 0).
Proof.
  destruct (paginated_fetch_concatenates_pages two_pages nupic fresh_world
              (getContributors two_pages) (ReposGetContributors "numenta" "nupic")
              ltac:(left) page1 eq_refl) as [Hrun _].
  destruct (Hrun _ _ _ (two_pages_follow _) 2 ltac:(simpl; lia)) as [Hfetch Hlen].
  split; [by rewrite Hfetch | exact Hlen].
Defined.

(** C2. For [getContributors] and [getCommits]: when the request for the
    first page fails, the callback receives that error; when the first page
    is answered, a failure of any later request ends the aggregation with a
    successful callback carrying the entries gathered so far, and no run
    delivers an error. *)
Theorem paginated_fetch_error_after_first_page_ends_listing
    (env : Provider) (me : RepositoryClient) (w : World) :
  ∀ fetch c, (fetch, c) ∈ paginated_fetches env me →
    (∀ err, page_answer env (now w) c = inl err →
       ∀ fuel, fetch fuel me w = (Some (inl err), log c w))
    ∧ (∀ p, page_answer env (now w) c = inr p →
       (∀ qs e w', following_pages env (log c w) p qs e w' →
          ∀ fuel, length qs < fuel →
            fetch fuel me w = (Some (inr (entries (p :: qs))), w'))
       ∧ (∀ fuel err, fst (fetch fuel me w) ≠ Some (inl err))).
Proof.
  intros fetch c Hfetch.
  assert (∀ fuel, fetch fuel me w =
            match page_answer env (now w) c with
            | inl err => (Some (inl err), log c w)
            | inr p => _getRemainingPages env fuel p None (log c w)
            end) as Hrun.
  { intros fuel. unfold paginated_fetches in Hfetch.
    apply elem_of_cons in Hfetch as [[= -> ->]|Hfetch].
    - by rewrite getContributors_unfold.
    - apply list_elem_of_singleton in Hfetch as [= -> ->].
      by rewrite getCommits_unfold. }
  split.
  - intros err Hfirst fuel. by rewrite Hrun, Hfirst.
  - intros p Hfirst. split.
    + intros qs e w' Hpages fuel Hfuel. rewrite Hrun, Hfirst.
      by rewrite (getRemainingPages_run env _ _ _ _ _ Hpages).
    + intros fuel err. rewrite Hrun, Hfirst.
      destruct (_getRemainingPages env fuel p None (log c w)) as [[r|] w'] eqn:Hr;
        [|done].
      apply getRemainingPages_ended in Hr as (qs & e & _ & ->). done.
Qed.

(** The commits of a repository whose second page is followed by a 502 are
    delivered; with the first page failing, the 500 is delivered. *)
Lemma paginated_fetch_error_after_first_page_ends_listing_witness :
  getCommits no_pages 5 nupic fresh_world
  = (Some (inl (TransportError 500)),
     log (ReposGetCommits "numenta" "nupic") fresh_world)
  ∧ fst (getCommits two_pages 5 nupic fresh_world) = Some (inr ["a"; "b"; "c"]).
Proof.
  split.
  - destruct (paginated_fetch_error_after_first_page_ends_listing
                no_pages nupic fresh_world (getCommits no_pages)
                (ReposGetCommits "numenta" "nupic")
                ltac:(right; left)) as [Hfail _].
    by apply Hfail.
  - destruct (paginated_fetch_error_after_first_page_ends_listing
                two_pages nupic fresh_world (getCommits two_pages)
                (ReposGetCommits "numenta" "nupic")
                ltac:(right; left)) as [_ Hlater].
    destruct (Hlater page1 eq_refl) as [Hrun _].
    by rewrite (Hrun _ _ _ (two_pages_follow _) 5 ltac:(simpl; lia)).
Defined.

(* ================================================================= *)
(** * Webhook reconciliation *)

Section hooks_facts.
Variable env : Provider.
Variable me : RepositoryClient.
Variable url : string.
Variable events : list string.
Implicit Types (w : World) (h hook : Hook) (hs sts : list Hook).

Lemma filter_ext_in {A : Type} (P Q : A → Prop)
    `{∀ x, Decision (P x)} `{∀ x, Decision (Q x)} (l : list A) :
  (∀ x, x ∈ l → (P x ↔ Q x)) → filter P l = filter Q l.
Proof.
  induction l as [|x l IH]; intros Hext; [done|].
  rewrite !filter_cons.
  rewrite IH by (intros y Hy; apply Hext; by right).
  pose proof (Hext x ltac:(left)).
  destruct (decide (P x)), (decide (Q x)); tauto.
Qed.

(** The [forEach] sets [found] when some webhook is satisfied and queues the
    removal of the stale ones, in the order of the listing. *)
Lemma visit_hooks hs found hookRemovers :
  foldl (visit_hook env me url events) (found, hookRemovers) hs
  = (found || existsb (satisfied url events) hs,
     hookRemovers ++ (hookRemover env me <$> filter (λ h, stale url events h) hs)).
Proof.
  revert found hookRemovers.
  induction hs as [|h hs IH]; intros found hookRemovers; simpl.
  - by rewrite orb_false_r, app_nil_r.
  - rewrite filter_cons.
    destruct (decide (stale url events h)) as [Hst|Hst];
      unfold stale in Hst; unfold satisfied at 1;
      destruct (hook_has_url url h), (arraysMatch (hook_events h) events);
      simpl in *; try done; rewrite IH;
      by rewrite <-?app_assoc, ?orb_true_r.
Qed.

Lemma deleteHook_unfold id w :
  github_repos_deleteHook env (org me) (repo me) id w =
  let c := ReposDeleteHook (org me) (repo me) id in
  match fault env (now w) c with
  | Some err => (inl err, log c w)
  | None =>
      if bool_decide (id ∈ hook_id <$> hooks w)
      then (inr (), set_hooks (filter (λ h, hook_id h ≠ id) (hooks w))
                      (next_hook_id w) (log c w))
      else (inl (TransportError 404), log c w)
  end.
Proof. done. Qed.

(** All queued removals are sent, one request each; they only remove
    webhooks; without an error they have removed exactly the webhooks with
    the queued ids; an error is that of one of the requests; and a failed
    request makes the whole fail. *)
Lemma async_parallel_removers sts w :
  ∃ err w',
    async_parallel (hookRemover env me <$> sts) w = (err, w')
    ∧ calls w' = calls w ++ (ReposDeleteHook (org me) (repo me) ∘ hook_id <$> sts)
    ∧ next_hook_id w' = next_hook_id w
    ∧ (∀ h, h ∈ hooks w' → h ∈ hooks w)
    ∧ (err = None →
         hooks w' = filter (λ h, hook_id h ∉ hook_id <$> sts) (hooks w))
    ∧ (∀ e, err = Some e →
         ∃ i h, sts !! i = Some h
           ∧ (fault env (now w + i) (ReposDeleteHook (org me) (repo me) (hook_id h))
              = Some e
              ∨ e = TransportError 404))
    ∧ (∀ i h e, sts !! i = Some h →
         fault env (now w + i) (ReposDeleteHook (org me) (repo me) (hook_id h))
         = Some e →
         err ≠ None).
Proof.
  revert w. induction sts as [|st sts IH]; intros w.
  - exists None, w. simpl. rewrite app_nil_r.
    repeat split; try done.
    intros _. symmetry. apply filter_all. intros h _. apply not_elem_of_nil.
  - rewrite fmap_cons. simpl. unfold mbind, M_bind, mret, M_ret.
    unfold hookRemover at 1. rewrite deleteHook_unfold. cbv zeta.
    set (c := ReposDeleteHook (org me) (repo me) (hook_id st)).
    destruct (fault env (now w) c) as [e0|] eqn:Hfault;
      [|destruct (bool_decide (hook_id st ∈ hook_id <$> hooks w)) eqn:Hknown].
    + destruct (IH (log c w))
        as (err & w' & -> & Hcalls & Hnext & Hsub & _ & _ & _).
      exists (Some e0), w'. split; [done|].
      split; [rewrite Hcalls; simpl; by rewrite <-app_assoc|].
      split; [done|]. split; [done|]. split; [done|]. split; [|done].
      intros e [= <-]. exists 0, st. split; [done|]. left.
      by rewrite Nat.add_0_r.
    + destruct (IH (set_hooks (filter (λ h, hook_id h ≠ hook_id st) (hooks w))
                      (next_hook_id w) (log c w)))
        as (err & w' & -> & Hcalls & Hnext & Hsub & Hnone & Hsome & Hfail).
      exists err, w'. split; [done|].
      split; [rewrite Hcalls; simpl; by rewrite <-app_assoc|].
      split; [done|].
      split; [intros h Hh%Hsub; simpl in Hh;
              by apply list_elem_of_filter in Hh as [_ ?]|].
      split; [|split].
      * intros Herr. rewrite (Hnone Herr). simpl.
        rewrite list_filter_filter. apply filter_ext_in.
        intros h _. rewrite not_elem_of_cons. tauto.
      * intros e Herr. destruct (Hsome e Herr) as (i & h & Hi & Hcause).
        exists (S i), h. split; [done|].
        replace (now w + S i) with (now (log c w) + i); [done|].
        unfold now, log. simpl. rewrite length_app. simpl. lia.
      * intros [|i] h e Hi He.
        -- simpl in Hi. injection Hi as <-. rewrite Nat.add_0_r in He.
           fold c in He. congruence.
        -- apply (Hfail i h e Hi).
           replace (now (set_hooks _ _ (log c w)) + i) with (now w + S i); [done|].
           unfold now, set_hooks, log. simpl. rewrite length_app. simpl. lia.
    + destruct (IH (log c w))
        as (err & w' & -> & Hcalls & Hnext & Hsub & _ & _ & _).
      exists (Some (TransportError 404)), w'. split; [done|].
      split; [rewrite Hcalls; simpl; by rewrite <-app_assoc|].
      split; [done|]. split; [done|]. split; [done|]. split; [|done].
      intros e [= <-]. exists 0, st. split; [done|]. by right.
Qed.

Lemma confirmWebhookExists_unfold w :
  confirmWebhookExists env me url events w =
  let c := ReposGetHooks (org me) (repo me) in
  match fault env (now w) c with
  | Some err => (inl err, log c w)
  | None =>
      let (err, w1) :=
        async_parallel
          (hookRemover env me <$> filter (λ h, stale url events h) (hooks w))
          (log c w) in
      match err with
      | Some err => (inl err, w1)
      | None =>
          if existsb (satisfied url events) (hooks w) then (inr (), w1)
          else
            let c' := ReposCreateHook (org me) (repo me) "web" url events in
            match fault env (now w1) c' with
            | Some err => (inl err, log c' w1)
            | None =>
                let data := {| hook_id := fresh_hook_id w1;
                               hook_name := "web";
                               hook_config := Some {| config_url := url |};
                               hook_events := events |} in
                (inr (), set_hooks (hooks w1 ++ [data]) (S (hook_id data))
                           (log c' w1))
            end
      end
  end.
Proof.
  unfold confirmWebhookExists, github_repos_getHooks.
  unfold mbind, M_bind, mret, M_ret. cbv zeta.
  destruct (fault env (now w) _); [done|].
  rewrite visit_hooks. simpl.
  destruct (async_parallel _ _) as [[err|] w1]; [done|].
  destruct (existsb _ _); simpl; [done|].
  unfold github_repos_createHook. by destruct (fault env (now w1) _).
Qed.

Lemma hook_id_inj_on hs h h' :
  NoDup (hook_id <$> hs) → h ∈ hs → h' ∈ hs → hook_id h = hook_id h' → h = h'.
Proof.
  induction hs as [|x hs IH]; [by intros _ ?%elem_of_nil|].
  rewrite fmap_cons, NoDup_cons. intros [Hx Hnd] Hh Hh' Hid.
  apply elem_of_cons in Hh as [->|Hh]; apply elem_of_cons in Hh' as [->|Hh'].
  - done.
  - destruct Hx. rewrite Hid. by apply list_elem_of_fmap_2.
  - destruct Hx. rewrite <-Hid. by apply list_elem_of_fmap_2.
  - by apply IH.
Qed.

(** With distinct ids, removing the ids of the stale webhooks removes the
    stale webhooks and nothing else. *)
Lemma filter_stale_ids hs :
  NoDup (hook_id <$> hs) →
  filter (λ h, hook_id h ∉ hook_id <$> filter (λ h, stale url events h) hs) hs
  = filter (λ h, ¬ stale url events h) hs.
Proof.
  intros Hnd. apply filter_ext_in. intros h Hh. split.
  - intros Hnotin Hst. apply Hnotin, list_elem_of_fmap_2.
    by apply list_elem_of_filter.
  - intros Hst (h' & Hid & [Hst' Hh']%list_elem_of_filter)%list_elem_of_fmap.
    by rewrite (hook_id_inj_on hs h h') in Hst.
Qed.

Lemma satisfied_among_kept hs :
  filter (λ h, hook_has_url url h) (filter (λ h, ¬ stale url events h) hs)
  = filter (λ h, satisfied url events h) hs.
Proof.
  rewrite list_filter_filter. apply filter_ext_in. intros h _.
  unfold stale, satisfied.
  destruct (hook_has_url url h), (arraysMatch (hook_events h) events); simpl; tauto.
Qed.

Lemma satisfied_kept hs :
  filter (λ h, satisfied url events h) (filter (λ h, ¬ stale url events h) hs)
  = filter (λ h, satisfied url events h) hs.
Proof.
  rewrite list_filter_filter. apply filter_ext_in. intros h _.
  unfold stale, satisfied.
  destruct (hook_has_url url h), (arraysMatch (hook_events h) events); simpl; tauto.
Qed.

Lemma existsb_satisfied hs :
  existsb (satisfied url events) hs = true
  ↔ filter (λ h, satisfied url events h) hs ≠ [].
Proof.
  induction hs as [|h hs IH]; simpl; [done|].
  rewrite filter_cons, orb_true_iff, IH.
  destruct (decide (satisfied url events h)) as [Hs|Hs].
  - split; [done|]. intros _. left. by apply Is_true_true.
  - split; [|tauto]. intros [Hs'|?]; [|done]. destruct Hs. by apply Is_true_true.
Qed.

(** A world where every webhook for [url] is satisfied and there is one: a
    run sends the listing request and nothing else. *)
Lemma confirmWebhookExists_settled w r w' :
  (∀ h, h ∈ hooks w → hook_has_url url h = true →
        arraysMatch (hook_events h) events = true) →
  existsb (satisfied url events) (hooks w) = true →
  confirmWebhookExists env me url events w = (r, w') →
  hooks w' = hooks w ∧ next_hook_id w' = next_hook_id w
  ∧ calls w' = calls w ++ [ReposGetHooks (org me) (repo me)].
Proof.
  intros Hall Hfound. rewrite confirmWebhookExists_unfold. cbv zeta.
  destruct (fault env (now w) _); [by intros [= <- <-]|].
  assert (filter (λ h, stale url events h) (hooks w) = []) as ->.
  { apply elem_of_nil_inv. intros h [Hst Hh]%list_elem_of_filter.
    unfold stale in Hst. destruct (hook_has_url url h) eqn:Hurl; [|done].
    by rewrite (Hall h Hh Hurl) in Hst. }
  simpl. unfold mret, M_ret. rewrite Hfound. by intros [= <- <-].
Qed.
End hooks_facts.

(** C3. When the listing of webhooks is answered: the requests of a run are
    the listing, then one deletion for each stale webhook for [url], then at
    most one creation, sent only if none of the deletion requests failed; and
    if the request that deletes some stale webhook fails,
    [confirmWebhookExists] passes an error to its callback, the error of a
    failed deletion, sends no creation and adds no webhook. *)
Theorem confirmWebhookExists_failed_removal_fails_all
    (env : Provider) (me : RepositoryClient) (url : string)
    (events : list string) (w : World) :
  let getHooks := ReposGetHooks (org me) (repo me) in
  let deleteHook := λ h, ReposDeleteHook (org me) (repo me) (hook_id h) in
  let createHook := ReposCreateHook (org me) (repo me) "web" url events in
  let stale_hooks := filter (λ h, stale url events h) (hooks w) in
  fault env (now w) getHooks = None →
  (∀ i h e,
     stale_hooks !! i = Some h →
     fault env (now w + 1 + i) (deleteHook h) = Some e →
     ∃ err w',
       confirmWebhookExists env me url events w = (inl err, w')
       ∧ (∃ j h', stale_hooks !! j = Some h'
            ∧ (fault env (now w + 1 + j) (deleteHook h') = Some err
               ∨ err = TransportError 404))
       ∧ calls w' = calls w ++ getHooks :: (deleteHook <$> stale_hooks)
       ∧ (∀ user repo name url' events',
            ReposCreateHook user repo name url' events'
            ∉ getHooks :: (deleteHook <$> stale_hooks))
       ∧ (∀ h', h' ∈ hooks w' → h' ∈ hooks w))
  ∧ (∀ r w', confirmWebhookExists env me url events w = (r, w') →
       calls w' = calls w ++ getHooks :: (deleteHook <$> stale_hooks)
       ∨ (calls w' = calls w ++ getHooks :: (deleteHook <$> stale_hooks) ++ [createHook]
          ∧ ∀ j h', stale_hooks !! j = Some h' →
              fault env (now w + 1 + j) (deleteHook h') = None)).
Proof.
  intros getHooks deleteHook createHook stale_hooks Hlisted.
  rewrite confirmWebhookExists_unfold. cbv zeta. fold getHooks createHook.
  rewrite Hlisted. fold stale_hooks.
  destruct (async_parallel_removers env me stale_hooks (log getHooks w))
    as (err & w1 & -> & Hcalls & _ & Hsub & _ & Hsome & Hfail).
  assert (∀ j, now (log getHooks w) + j = now w + 1 + j) as Hnow.
  { intros j. unfold now, log. simpl. rewrite length_app. simpl. lia. }
  assert (calls w1 = calls w ++ getHooks :: (deleteHook <$> stale_hooks)) as Hsent
    by (rewrite Hcalls; simpl; by rewrite <-app_assoc).
  split.
  - intros i h e Hi Hfails. destruct err as [err|].
    + exists err, w1. split; [done|].
      split.
      { destruct (Hsome err eq_refl) as (j & h' & Hj & Hcause).
        exists j, h'. split; [done|]. by rewrite <-Hnow. }
      split; [done|]. split; [|done].
      intros user repo' name url' events' [?|Hin]%elem_of_cons; [done|].
      by apply list_elem_of_fmap in Hin as (? & ? & _).
    + destruct (Hfail i h e Hi); [|done]. by rewrite Hnow.
  - intros r w'. destruct err as [err|]; [intros [= _ <-]; by left|].
    assert (∀ j h', stale_hooks !! j = Some h' →
              fault env (now w + 1 + j) (deleteHook h') = None) as Hall.
    { intros j h' Hj.
      destruct (fault env (now w + 1 + j) (deleteHook h')) as [failed|] eqn:He;
        [|done].
      destruct (Hfail j h' failed Hj); [by rewrite Hnow|done]. }
    destruct (existsb _ _); [intros [= _ <-]; by left|].
    destruct (fault env (now w1) createHook);
      intros [= _ <-]; right; simpl; by rewrite Hsent, <-app_assoc.
Qed.

(** Both webhooks of [outdated] are stale for the event [pull_request]; the
    provider refuses to delete, and nothing is created. *)
Lemma confirmWebhookExists_failed_removal_fails_all_witness :
  ∃ err w',
    confirmWebhookExists undeletable nupic tools_url ["pull_request"] outdated
    = (inl err, w')
    ∧ calls w' = [ReposGetHooks "numenta" "nupic";
                  ReposDeleteHook "numenta" "nupic" 1;
                  ReposDeleteHook "numenta" "nupic" 2].
Proof.
  destruct (confirmWebhookExists_failed_removal_fails_all
              undeletable nupic tools_url ["pull_request"] outdated eq_refl)
    as [Hfails _].
  destruct (Hfails 0 (push_hook 1 ["push"]) (TransportError 500) eq_refl eq_refl)
    as (err & w' & Hrun & _ & Hcalls & _).
  exists err, w'. split; [exact Hrun | exact Hcalls].
Defined.

(** C1, as amended. For distinct webhook ids and duplicate-free [events],
    after a successful [confirmWebhookExists url events]: every webhook for
    [url] has exactly the events [events], as a set and without repetition;
    there are [max 1 k] of them, where [k] counts the webhooks for [url] that
    had those events before, so exactly one unless several had; and a second
    run with the same arguments sends the listing request only, deleting and
    creating nothing. *)
Theorem confirmWebhookExists_reconciles_and_settles
    (env : Provider) (me : RepositoryClient) (url : string)
    (events : list string) (w w1 : World) :
  NoDup events →
  NoDup (hook_id <$> hooks w) →
  confirmWebhookExists env me url events w = (inr (), w1) →
  let k := length (filter (λ h, satisfied url events h) (hooks w)) in
  let for_url := filter (λ h, hook_has_url url h) (hooks w1) in
  (∀ h, h ∈ for_url →
     list_to_set (hook_events h) =@{gset string} list_to_set events
     ∧ NoDup (hook_events h))
  ∧ length for_url = Nat.max 1 k
  ∧ (k ≤ 1 → ∃ h, for_url = [h]
                  ∧ list_to_set (hook_events h) =@{gset string} list_to_set events)
  ∧ (∀ r w2, confirmWebhookExists env me url events w1 = (r, w2) →
       hooks w2 = hooks w1 ∧ next_hook_id w2 = next_hook_id w1
       ∧ calls w2 = calls w1 ++ [ReposGetHooks (org me) (repo me)]).
Proof.
  intros Hevents Hids Hrun k for_url.
  assert (arraysMatch events events = true) as Hself
    by (by apply arraysMatch_true).
  (* the webhooks after the run: the ones kept, and the one created if any *)
  assert (∃ created,
            hooks w1 = filter (λ h, ¬ stale url events h) (hooks w) ++ created
            ∧ (∀ h, h ∈ created → satisfied url events h = true)
            ∧ length (filter (λ h, satisfied url events h) (hooks w) ++ created)
              = Nat.max 1 k
            ∧ existsb (satisfied url events) (hooks w1) = true)
    as (created & Hhooks & Hcreated & Hcount & Hfound).
  { rewrite confirmWebhookExists_unfold in Hrun. cbv zeta in Hrun.
    destruct (fault env (now w) _); [done|].
    destruct (async_parallel_removers env me
                (filter (λ h, stale url events h) (hooks w))
                (log (ReposGetHooks (org me) (repo me)) w))
      as (err & w' & Hpar & _ & _ & _ & Hkept & _ & _).
    rewrite Hpar in Hrun. destruct err as [err|]; [done|].
    specialize (Hkept eq_refl). simpl in Hkept.
    rewrite filter_stale_ids in Hkept by done.
    destruct (existsb (satisfied url events) (hooks w)) eqn:Hfound.
    - injection Hrun as <-. exists []. rewrite !app_nil_r.
      split; [done|]. split; [by intros ? ?%elem_of_nil|].
      apply existsb_satisfied in Hfound as Hne.
      split.
      { subst k. clear -Hne. revert Hne.
        destruct (filter _ (hooks w)); [done|simpl; lia]. }
      apply existsb_satisfied. by rewrite Hkept, satisfied_kept.
    - destruct (fault env (now w') _); [done|]. injection Hrun as <-. simpl.
      eexists [_]. rewrite Hkept. split; [done|].
      assert (satisfied url events
                {| hook_id := fresh_hook_id w'; hook_name := "web";
                   hook_config := Some {| config_url := url |};
                   hook_events := events |} = true) as Hnew.
      { unfold satisfied, hook_has_url. simpl. by rewrite String.eqb_refl, Hself. }
      split; [by intros h ->%list_elem_of_singleton|].
      assert (filter (λ h, satisfied url events h) (hooks w) = []) as Hnone.
      { destruct (filter _ (hooks w)) eqn:Hf; [done|].
        apply not_true_iff_false in Hfound. destruct Hfound.
        apply existsb_satisfied. by rewrite Hf. }
      split; [subst k; by rewrite Hnone|].
      apply existsb_satisfied. rewrite filter_app.
      rewrite (filter_cons_True _ _ []) by (by apply Is_true_true).
      by destruct (filter _ (filter _ _)). }
  assert (for_url = filter (λ h, satisfied url events h) (hooks w) ++ created)
    as Hfor.
  { subst for_url. rewrite Hhooks, filter_app, satisfied_among_kept. f_equal.
    apply filter_all. intros h Hh%Hcreated. unfold satisfied in Hh.
    apply Is_true_true. by apply andb_true_iff in Hh as [? _]. }
  assert (∀ h, h ∈ for_url → arraysMatch (hook_events h) events = true) as Hall.
  { intros h. rewrite Hfor, elem_of_app, list_elem_of_filter.
    intros [[Hs%Is_true_true _]|Hs%Hcreated];
      unfold satisfied in Hs; by apply andb_true_iff in Hs as [_ ?]. }
  assert (∀ h, h ∈ for_url →
            list_to_set (hook_events h) =@{gset string} list_to_set events
            ∧ NoDup (hook_events h)) as Hsets.
  { intros h Hh%Hall%arraysMatch_set. tauto. }
  split; [done|]. split; [by rewrite Hfor|]. split.
  - intros Hk. rewrite <-Hfor in Hcount. clear Hfor Hall.
    clearbody for_url. destruct for_url as [|h [|h' rest]]; simpl in Hcount; try lia.
    exists h. split; [done|]. apply Hsets. left.
  - intros r w2. apply confirmWebhookExists_settled; [|done].
    intros h Hh Hurl. apply Hall. subst for_url.
    apply list_elem_of_filter. split; [by apply Is_true_true|done].
Qed.

(** A webhook for [push] alone is replaced by one for [push] and [status];
    that is then the only webhook for the URL. *)
Lemma confirmWebhookExists_reconciles_and_settles_witness :
  let w := world_of [push_hook 1 ["push"]] 2 in
  let w1 := snd (confirmWebhookExists quiet nupic tools_url ["push"; "status"] w) in
  ∃ h, filter (λ h, hook_has_url tools_url h) (hooks w1) = [h]
       ∧ list_to_set (hook_events h) =@{gset string} list_to_set ["push"; "status"].
Proof.
  intros w w1.
  assert (NoDup ["push"; "status"]) as Hevents
    by (apply (bool_decide_unpack _); vm_compute; exact I).
  assert (NoDup (hook_id <$> hooks w)) as Hids
    by (apply (bool_decide_unpack _); vm_compute; exact I).
  destruct (confirmWebhookExists_reconciles_and_settles
              quiet nupic tools_url ["push"; "status"] w w1 Hevents Hids eq_refl)
    as (_ & _ & Hone & _).
  apply Hone. vm_compute. lia.
Defined.

(** C1 without these provisos fails on two counts. From [twice_registered]
    a successful run leaves two webhooks for the URL. And with the events
    [push; push] a first run creates webhook 1, which a second run deletes
    and replaces by webhook 2. *)
Lemma confirmWebhookExists_two_satisfied_or_repeated_events :
  (∃ w1,
     confirmWebhookExists quiet nupic tools_url ["push"] twice_registered
     = (inr (), w1)
     ∧ filter (λ h, hook_has_url tools_url h) (hooks w1)
       = [push_hook 1 ["push"]; push_hook 2 ["push"]])
  ∧ (∃ w1 w2,
       confirmWebhookExists quiet nupic tools_url ["push"; "push"] fresh_world
       = (inr (), w1)
       ∧ confirmWebhookExists quiet nupic tools_url ["push"; "push"] w1
         = (inr (), w2)
       ∧ hooks w1 = [push_hook 1 ["push"; "push"]]
       ∧ hooks w2 = [push_hook 2 ["push"; "push"]]
       ∧ calls w2 = calls w1 ++
           [ReposGetHooks "numenta" "nupic";
            ReposDeleteHook "numenta" "nupic" 1;
            ReposCreateHook "numenta" "nupic" "web" tools_url ["push"; "push"]]).
Proof.
  split.
  - eexists. split; [vm_compute; reflexivity|]. vm_compute. reflexivity.
  - do 2 eexists. split; [vm_compute; reflexivity|].
    split; [vm_compute; reflexivity|]. repeat split.
Qed.

(* ================================================================= *)
(** * [getAllOpenPullRequests] *)

(** C6. [getAllOpenPullRequests] sends the one request for open pull
    requests and passes its answer on; it never asks for a next page. With
    the pull requests [a; b] on a first page and [c] on a second, it delivers
    the first page, where the aggregation of [getContributors] and
    [getCommits], started from that page, delivers [a; b; c]. *)
Theorem getAllOpenPullRequests_delivers_first_page_only :
  (∀ env me w,
     getAllOpenPullRequests env me w
     = (page_answer env (now w) (PullRequestsGetAll (org me) (repo me) "open"),
        log (PullRequestsGetAll (org me) (repo me) "open") w))
  ∧ fst (getAllOpenPullRequests two_pages nupic fresh_world) = inr page1
  ∧ page_items page1 = ["a"; "b"]
  ∧ fst (_getRemainingPages two_pages 2 page1 None
           (log (PullRequestsGetAll "numenta" "nupic" "open") fresh_world))
    = Some (inr ["a"; "b"; "c"]).
Proof. repeat split. Qed.

(* ================================================================= *)
(** * Further properties *)

(** ** [arraysMatch] *)

Section arrays_match_more.
Context {A : Type} `{EqDecision A}.
Implicit Types l r s : list A.

(** X1. [arraysMatch] is transitive: with its symmetry, it is an equivalence
    on the arrays it accepts at all, the duplicate-free ones. *)
Theorem arraysMatch_transitive l r s :
  arraysMatch l r = true → arraysMatch r s = true → arraysMatch l s = true.
Proof.
  rewrite !arraysMatch_true. intros [Hl Hlr] [_ Hrs].
  split; [done|]. by rewrite Hlr.
Qed.

(** X2. Arrays that match have the same length, and the one with no element
    matches the empty array only. *)
Theorem arraysMatch_same_length l r :
  (arraysMatch l r = true → length l = length r)
  ∧ (arraysMatch l [] = true ↔ l = [])
  ∧ (arraysMatch [] r = true ↔ r = []).
Proof.
  split; [|split].
  - intros [_ Hp]%arraysMatch_true. by rewrite Hp.
  - rewrite arraysMatch_true. split.
    + intros [_ Hp]. by apply Permutation_nil_r.
    + intros ->. split; [constructor|done].
  - rewrite arraysMatch_true. split.
    + intros [_ Hp]. symmetry in Hp. by apply Permutation_nil_r in Hp.
    + intros ->. split; [constructor|done].
Qed.
End arrays_match_more.

Lemma arraysMatch_transitive_witness :
  arraysMatch ["push"; "status"; "issues"] ["issues"; "push"; "status"] = true.
Proof.
  apply (arraysMatch_transitive _ ["status"; "issues"; "push"]); reflexivity.
Defined.

Lemma arraysMatch_same_length_witness :
  length ["push"; "status"] = length ["status"; "push"].
Proof.
  destruct (arraysMatch_same_length ["push"; "status"] ["status"; "push"])
    as [Hlen _].
  apply Hlen. reflexivity.
Defined.

(** ** [getRepoSlug] *)

Lemma slug_split (o1 o2 r1 r2 : string) :
  has_slash o1 = false → has_slash o2 = false →
  o1 +:+ "/" +:+ r1 = o2 +:+ "/" +:+ r2 → o1 = o2 ∧ r1 = r2.
Proof.
  revert o2. induction o1 as [|c o1 IH]; intros [|d o2] Hc Hd Heq;
    cbv [String.append] in Heq; fold String.append in Heq; simpl in Hc, Hd.
  - by injection Heq as ->.
  - injection Heq as <- _. by rewrite Ascii.eqb_refl in Hd.
  - injection Heq as -> _. by rewrite Ascii.eqb_refl in Hc.
  - apply orb_false_iff in Hc as [_ Hc]. apply orb_false_iff in Hd as [_ Hd].
    injection Heq as -> Heq.
    destruct (IH o2 Hc Hd Heq) as [-> ->]. done.
Qed.

(** X3. The slug names the repository: two clients whose organization
    names contain no slash and whose slugs are equal are for the same
    organization and repository; [toString] gives the slug. *)
Theorem getRepoSlug_identifies_repository (me me' : RepositoryClient) :
  has_slash (org me) = false → has_slash (org me') = false →
  toString me = toString me' →
  org me = org me' ∧ repo me = repo me'.
Proof. intros Hme Hme'. unfold toString, getRepoSlug. by apply slug_split. Qed.

Lemma getRepoSlug_identifies_repository_witness :
  org nupic = "numenta" ∧ repo nupic = "nupic".
Proof.
  apply (getRepoSlug_identifies_repository nupic
           {| org := "numenta"; repo := "nupic" |}); reflexivity.
Defined.

(** ** Paginated listings *)

Section pages_more.
Variable env : Provider.
Implicit Types (me : RepositoryClient) (w : World) (p q : Page)
  (qs : list Page) (old : option (list string)).

(** The requests behind [following_pages], and what they leave alone. *)
Lemma following_pages_calls w p qs e w' :
  following_pages env w p qs e w' →
  calls w' = calls w ++ (GetNextPage <$> p :: qs)
  ∧ hooks w' = hooks w ∧ next_hook_id w' = next_hook_id w.
Proof.
  induction 1 as [w p e _|w p q qs e w' _ _ (IHc & IHh & IHn)]; [done|].
  split; [|done]. rewrite IHc. simpl. by rewrite <-app_assoc.
Qed.

(** X4. A run of [_getRemainingPages] that ends has asked, in order and once
    each, for the page after the one it was given and after every page the
    provider answered, until a request failed: the pages [qs] are those
    answers, each the answer to the request made with the page before it.
    The run has delivered the old entries followed by those of the pages, has
    sent these requests and nothing else, as many as it had fuel for at
    most, and has left the webhooks alone. *)
Theorem getRemainingPages_requests_in_sequence fuel p old w r w' :
  _getRemainingPages env fuel p old w = (Some r, w') →
  ∃ qs e, following_pages env w p qs e w'
          ∧ (∀ i q, (p :: qs) !! i = Some q →
               page_answer env (now w + i) (GetNextPage q)
               = match qs !! i with Some q' => inr q' | None => inl e end)
          ∧ r = inr (default [] old ++ entries (p :: qs))
          ∧ calls w' = calls w ++ (GetNextPage <$> p :: qs)
          ∧ length qs < fuel
          ∧ hooks w' = hooks w.
Proof.
  revert p old w. induction fuel as [|fuel IH]; intros p old w; [done|].
  rewrite getRemainingPages_step.
  destruct (page_answer env (now w) (GetNextPage p)) as [e|q] eqn:Hanswer.
  - intros [= <- <-]. exists [], e. unfold entries. simpl. rewrite app_nil_r.
    split; [by constructor|]. split.
    { intros [|i] q'; [|done]. intros [= <-]. by rewrite Nat.add_0_r. }
    split; [done|]. split; [done|]. split; [lia|done].
  - intros (qs & e & Hpages & Hanswers & -> & Hcalls & Hfuel & Hhooks)%IH.
    exists (q :: qs), e. split; [by econstructor|]. split.
    { intros [|i] q'.
      - intros [= <-]. by rewrite Nat.add_0_r.
      - intros Hi. specialize (Hanswers i q' Hi).
        replace (now w + S i) with (now (log (GetNextPage p) w) + i); [done|].
        unfold now, log. simpl. rewrite length_app. simpl. lia. }
    unfold entries in *. simpl in *. rewrite <-!app_assoc in *.
    split; [done|]. split; [done|]. split; [lia|done].
Qed.

(** X5. The value of [allDataOld] is only a prefix of the result: a run
    started with the entries [old] behaves as the run started without, with
    [old] before its entries. *)
Theorem getRemainingPages_accumulates fuel p (old : list string) w :
  _getRemainingPages env fuel p (Some old) w
  = (let (r, w') := _getRemainingPages env fuel p None w in
     (match r with
      | Some (inr items) => Some (inr (old ++ items))
      | other => other
      end, w')).
Proof.
  assert (∀ fuel p (acc : list string) w,
            _getRemainingPages env fuel p (Some acc) w
            = (let (r, w') := _getRemainingPages env fuel p (Some []) w in
               (match r with
                | Some (inr items) => Some (inr (acc ++ items))
                | other => other
                end, w'))) as Hacc.
  { clear. intros fuel. induction fuel as [|fuel IH]; intros p acc w; [done|].
    rewrite !getRemainingPages_step. simpl.
    destruct (page_answer env (now w) (GetNextPage p)) as [e|q]; [done|].
    rewrite (IH q (acc ++ page_items p)), (IH q (page_items p)).
    destruct (_getRemainingPages env fuel q (Some []) _) as [[[err|items]|] w'];
      [done| |done].
    by rewrite <-app_assoc. }
  assert (∀ fuel p w,
            _getRemainingPages env fuel p None w
            = _getRemainingPages env fuel p (Some []) w) as Hnone.
  { clear. intros [|fuel'] p' w'; [done|]. by rewrite !getRemainingPages_step. }
  rewrite Hacc, Hnone.
  by destruct (_getRemainingPages env fuel p (Some []) w) as [[[err|items]|] w'].
Qed.

(** X6. The aggregation stops on a failed request only: against a provider
    that answers every request for a next page with a page, neither
    [_getRemainingPages] nor, once their first page is answered,
    [getContributors] and [getCommits] deliver anything, whatever the fuel. *)
Theorem paginated_fetch_needs_a_failed_request :
  (∀ t q, ∃ q', page_answer env t (GetNextPage q) = inr q') →
  (∀ fuel p old w, fst (_getRemainingPages env fuel p old w) = None)
  ∧ (∀ fetch c me w p,
       (fetch, c) ∈ paginated_fetches env me →
       page_answer env (now w) c = inr p →
       ∀ fuel, fst (fetch fuel me w) = None).
Proof.
  intros Hmore.
  assert (∀ fuel p old w, fst (_getRemainingPages env fuel p old w) = None)
    as Hnever.
  { intros fuel. induction fuel as [|fuel IH]; intros p old w; [done|].
    rewrite getRemainingPages_step.
    destruct (Hmore (now w) p) as [q ->]. apply IH. }
  split; [done|].
  intros fetch c me w p Hfetch Hfirst fuel.
  unfold paginated_fetches in Hfetch.
  apply elem_of_cons in Hfetch as [[= -> ->]|Hfetch].
  - rewrite getContributors_unfold. cbv zeta. rewrite Hfirst. apply Hnever.
  - apply list_elem_of_singleton in Hfetch as [= -> ->].
    rewrite getCommits_unfold. cbv zeta. rewrite Hfirst. apply Hnever.
Qed.
End pages_more.

(** Against [two_pages], started with the first page: the second page is
    answered, the request after it fails, and the entries are [a; b; c]. *)
Lemma getRemainingPages_requests_in_sequence_witness :
  ∃ qs e,
    following_pages two_pages fresh_world page1 qs e
      (snd (_getRemainingPages two_pages 4 page1 None fresh_world))
    ∧ ["a"; "b"; "c"] = entries (page1 :: qs)
    ∧ calls (snd (_getRemainingPages two_pages 4 page1 None fresh_world))
      = GetNextPage <$> page1 :: qs
    ∧ length qs < 4.
Proof.
  destruct (getRemainingPages_requests_in_sequence two_pages 4 page1 None
              fresh_world (inr ["a"; "b"; "c"])
              (snd (_getRemainingPages two_pages 4 page1 None fresh_world))
              eq_refl)
    as (qs & e & Hpages & _ & Hitems & Hcalls & Hfuel & _).
  exists qs, e. split; [exact Hpages|].
  split; [exact (f_equal (λ r, match r with inr items => items | inl _ => [] end) Hitems)|].
  split; [exact Hcalls | exact Hfuel].
Defined.

Lemma paginated_fetch_needs_a_failed_request_witness :
  fst (getCommits endless 50 nupic fresh_world) = None.
Proof.
  destruct (paginated_fetch_needs_a_failed_request endless) as [_ Hfetch].
  - intros t q. by exists page1.
  - apply (Hfetch (getCommits endless) (ReposGetCommits "numenta" "nupic")
             nupic fresh_world page1); [right; left | reflexivity].
Defined.

(** ** Webhook reconciliation *)

Section hooks_more.
Variable env : Provider.
Variable me : RepositoryClient.
Variable url : string.
Variable events : list string.
Implicit Types (w : World) (h hook : Hook) (hs sts : list Hook).

Lemma fresh_hook_id_above w h : h ∈ hooks w → hook_id h < fresh_hook_id w.
Proof.
  unfold fresh_hook_id. intros Hh.
  assert (hook_id h ≤ foldr Nat.max 0 (hook_id <$> hooks w)); [|lia].
  induction (hooks w) as [|x hs IH]; [by apply elem_of_nil in Hh|].
  rewrite fmap_cons. cbn [foldr].
  apply elem_of_cons in Hh as [->|Hh]; [lia|].
  specialize (IH Hh). lia.
Qed.

(** Whatever the removals answer, the webhooks left are the former ones
    without those of some of the queued ids. *)
Lemma async_parallel_removers_deleted sts w :
  ∃ deleted : list nat,
    (∀ id, id ∈ deleted → id ∈ hook_id <$> sts)
    ∧ hooks (snd (async_parallel (hookRemover env me <$> sts) w))
      = filter (λ h, hook_id h ∉ deleted) (hooks w).
Proof.
  revert w. induction sts as [|st sts IH]; intros w.
  - exists []. split; [done|]. simpl. symmetry. apply filter_all.
    intros h _. apply not_elem_of_nil.
  - rewrite fmap_cons. simpl. unfold mbind, M_bind, mret, M_ret.
    unfold hookRemover at 1. rewrite deleteHook_unfold. cbv zeta.
    set (c := ReposDeleteHook (org me) (repo me) (hook_id st)).
    destruct (fault env (now w) c) as [e0|];
      [|destruct (bool_decide (hook_id st ∈ hook_id <$> hooks w))].
    + destruct (IH (log c w)) as (deleted & Hsub & Hkept).
      destruct (async_parallel _ (log c w)) as [err w'].
      exists deleted. split; [|done]. intros id Hid. right. by apply Hsub.
    + destruct (IH (set_hooks (filter (λ h, hook_id h ≠ hook_id st) (hooks w))
                      (next_hook_id w) (log c w))) as (deleted & Hsub & Hkept).
      destruct (async_parallel _ (set_hooks _ _ _)) as [err w'].
      exists (hook_id st :: deleted). split.
      * intros id [->|Hid]%elem_of_cons; [left|right; by apply Hsub].
      * simpl in *. rewrite Hkept, list_filter_filter. apply filter_ext_in.
        intros h _. rewrite not_elem_of_cons. tauto.
    + destruct (IH (log c w)) as (deleted & Hsub & Hkept).
      destruct (async_parallel _ (log c w)) as [err w'].
      exists deleted. split; [|done]. intros id Hid. right. by apply Hsub.
Qed.

(** With distinct ids, removals that the provider does not fail all
    succeed: every queued webhook is still there when its turn comes. *)
Lemma async_parallel_removers_succeed sts w :
  NoDup (hook_id <$> sts) →
  (∀ st, st ∈ sts → hook_id st ∈ hook_id <$> hooks w) →
  (∀ i st, sts !! i = Some st →
     fault env (now w + i) (ReposDeleteHook (org me) (repo me) (hook_id st)) = None) →
  fst (async_parallel (hookRemover env me <$> sts) w) = None.
Proof.
  revert w. induction sts as [|st sts IH]; intros w Hnd Hknown Hfault; [done|].
  rewrite fmap_cons in Hnd. apply NoDup_cons in Hnd as [Hst Hnd].
  rewrite fmap_cons. simpl. unfold mbind, M_bind, mret, M_ret.
  unfold hookRemover at 1. rewrite deleteHook_unfold. cbv zeta.
  set (c := ReposDeleteHook (org me) (repo me) (hook_id st)).
  pose proof (Hfault 0 st eq_refl) as Hnow. rewrite Nat.add_0_r in Hnow.
  fold c in Hnow. rewrite Hnow.
  rewrite bool_decide_eq_true_2 by (apply Hknown; left).
  set (w1 := set_hooks _ _ _).
  specialize (IH w1 Hnd).
  destruct (async_parallel _ w1) as [err w'] eqn:Hrest. simpl in *.
  apply IH.
  - intros st' Hst'. subst w1. simpl.
    pose proof (Hknown st' ltac:(by right)) as Hk.
    apply list_elem_of_fmap in Hk as (h & Hid & Hh).
    apply list_elem_of_fmap. exists h. split; [done|].
    apply list_elem_of_filter. split; [|done].
    intros Heq. apply Hst. rewrite <-Heq, <-Hid. by apply list_elem_of_fmap_2.
  - intros i st' Hi.
    replace (now w1 + i) with (now w + S i); [by apply Hfault|].
    subst w1. unfold now, set_hooks, log. simpl. rewrite length_app. simpl. lia.
Qed.

Lemma NoDup_ids_filter (P : Hook → Prop) `{∀ h, Decision (P h)} hs :
  NoDup (hook_id <$> hs) → NoDup (hook_id <$> filter P hs).
Proof.
  intros Hnd. eapply sublist_NoDup; [done|]. apply fmap_sublist, sublist_filter.
Qed.


(** Every run, successful or not: some stale webhooks are gone, and at most
    one webhook, for [url] and with [events], has been added at the end. *)
Lemma confirmWebhookExists_any_run w r w' :
  confirmWebhookExists env me url events w = (r, w') →
  ∃ (deleted : list nat) (created : list Hook),
    (∀ id, id ∈ deleted →
       id ∈ hook_id <$> filter (λ h, stale url events h) (hooks w))
    ∧ hooks w' = filter (λ h, hook_id h ∉ deleted) (hooks w) ++ created
    ∧ (created = []
       ∨ ∃ w1, created = [created_hook url events w1]
               ∧ hooks w1 = filter (λ h, hook_id h ∉ deleted) (hooks w)).
Proof.
  rewrite confirmWebhookExists_unfold. cbv zeta.
  destruct (fault env (now w) _).
  { intros [= _ <-]. exists [], []. rewrite app_nil_r.
    split; [by intros ? ?%elem_of_nil|].
    split; [|by left]. simpl. symmetry. apply filter_all.
    intros h _. apply not_elem_of_nil. }
  destruct (async_parallel_removers_deleted
              (filter (λ h, stale url events h) (hooks w))
              (log (ReposGetHooks (org me) (repo me)) w))
    as (deleted & Hsub & Hkept).
  destruct (async_parallel _ _) as [err w1]. simpl in Hkept.
  assert (∀ w2, hooks w2 = hooks w1 →
            ∃ created : list Hook,
              hooks w2 = filter (λ h, hook_id h ∉ deleted) (hooks w) ++ created
              ∧ (created = []
                 ∨ ∃ w1, created = [created_hook url events w1]
                         ∧ hooks w1 = filter (λ h, hook_id h ∉ deleted) (hooks w)))
    as Hsame.
  { intros w2 Hw2. exists []. rewrite app_nil_r, Hw2. split; [exact Hkept|].
    left. reflexivity. }
  destruct err as [err|].
  { intros [= _ <-]. destruct (Hsame w1 eq_refl) as (created & ? & ?).
    by exists deleted, created. }
  destruct (existsb _ _).
  { intros [= _ <-]. destruct (Hsame w1 eq_refl) as (created & ? & ?).
    by exists deleted, created. }
  destruct (fault env (now w1) _).
  { intros [= _ <-]. destruct (Hsame w1 eq_refl) as (created & ? & ?).
    by exists deleted, created. }
  intros [= _ <-]. exists deleted, [created_hook url events w1].
  split; [done|]. simpl. rewrite Hkept. split; [done|]. right. by exists w1.
Qed.

(** A successful run from distinct ids: the webhooks that were not stale,
    then the created one when none was satisfied. *)
Lemma confirmWebhookExists_success_hooks w w1 :
  NoDup (hook_id <$> hooks w) →
  confirmWebhookExists env me url events w = (inr (), w1) →
  ∃ w',
    hooks w' = filter (λ h, ¬ stale url events h) (hooks w)
    ∧ hooks w1 = hooks w' ++
        (if existsb (satisfied url events) (hooks w) then []
         else [created_hook url events w']).
Proof.
  intros Hids. rewrite confirmWebhookExists_unfold. cbv zeta.
  destruct (fault env (now w) _); [done|].
  destruct (async_parallel_removers env me
              (filter (λ h, stale url events h) (hooks w))
              (log (ReposGetHooks (org me) (repo me)) w))
    as (err & w' & -> & _ & _ & _ & Hkept & _ & _).
  destruct err as [err|]; [done|].
  specialize (Hkept eq_refl). simpl in Hkept.
  rewrite filter_stale_ids in Hkept by done.
  intros Hrun. exists w'. split; [done|]. revert Hrun.
  destruct (existsb _ _); [intros [= <-]; by rewrite app_nil_r|].
  destruct (fault env (now w') _); [done|]. by intros [= <-].
Qed.

(** The ids stay distinct through any run: the created webhook gets an id
    above those in use. *)
Lemma confirmWebhookExists_keeps_distinct_ids w r w' :
  NoDup (hook_id <$> hooks w) →
  confirmWebhookExists env me url events w = (r, w') →
  NoDup (hook_id <$> hooks w').
Proof.
  intros Hids (deleted & created & _ & -> & Hcreated)%confirmWebhookExists_any_run.
  rewrite fmap_app. apply NoDup_app. split; [by apply NoDup_ids_filter|].
  destruct Hcreated as [->|(w1 & -> & Hw1)].
  - split; [by intros ? _ ?%elem_of_nil|constructor].
  - split; [|apply NoDup_singleton].
    intros id (h & -> & Hh)%list_elem_of_fmap Hid%list_elem_of_singleton.
    rewrite <-Hw1 in Hh. apply (fresh_hook_id_above w1) in Hh.
    simpl in Hid. lia.
Qed.
End hooks_more.



(** X8. When the listing of webhooks fails, the callback receives that
    error, and the listing is the only request sent: nothing is deleted and
    nothing is created. *)
Theorem confirmWebhookExists_listing_failure
    (env : Provider) (me : RepositoryClient) (url : string)
    (events : list string) (w : World) (e : Error) :
  fault env (now w) (ReposGetHooks (org me) (repo me)) = Some e →
  ∃ w', confirmWebhookExists env me url events w = (inl e, w')
        ∧ hooks w' = hooks w
        ∧ calls w' = calls w ++ [ReposGetHooks (org me) (repo me)].
Proof.
  intros Hfault. rewrite confirmWebhookExists_unfold. cbv zeta. rewrite Hfault.
  by eexists.
Qed.

Lemma confirmWebhookExists_listing_failure_witness :
  ∃ w', confirmWebhookExists unlistable nupic tools_url ["push"] outdated
        = (inl (TransportError 401), w')
        ∧ hooks w' = hooks outdated
        ∧ calls w' = [ReposGetHooks "numenta" "nupic"].
Proof.
  apply (confirmWebhookExists_listing_failure unlistable nupic tools_url ["push"]
           outdated (TransportError 401)).
  reflexivity.
Defined.

Lemma not_satisfied (url : string) (events : list string) (hs : list Hook) :
  existsb (satisfied url events) hs = false ↔
  ∀ h, h ∈ hs → satisfied url events h = false.
Proof.
  split.
  - intros Hnone h Hh. apply not_true_iff_false. intros Hsat.
    apply not_true_iff_false in Hnone. apply Hnone, existsb_satisfied.
    intros Hnil. assert (h ∈ filter (λ h, satisfied url events h) hs) as Hin
      by (apply list_elem_of_filter; split; [by apply Is_true_true|done]).
    rewrite Hnil in Hin. by apply elem_of_nil in Hin.
  - intros Hall. apply not_true_iff_false. intros Hsome%existsb_satisfied.
    apply Hsome, elem_of_nil_inv. intros h [Hs%Is_true_true Hh]%list_elem_of_filter.
    by rewrite (Hall h Hh) in Hs.
Qed.

(** X9. The reconciliation is not undone when its last step fails. From
    distinct ids, when no webhook for [url] has the wanted events, every
    deletion is accepted and the creation fails: the callback receives the
    error of the creation, and no webhook for [url] is left. *)
Theorem confirmWebhookExists_failed_creation_leaves_none
    (env : Provider) (me : RepositoryClient) (url : string)
    (events : list string) (w : World) (e : Error) :
  let getHooks := ReposGetHooks (org me) (repo me) in
  let deleteHook := λ h, ReposDeleteHook (org me) (repo me) (hook_id h) in
  let createHook := ReposCreateHook (org me) (repo me) "web" url events in
  let stale_hooks := filter (λ h, stale url events h) (hooks w) in
  NoDup (hook_id <$> hooks w) →
  existsb (satisfied url events) (hooks w) = false →
  fault env (now w) getHooks = None →
  (∀ i h, stale_hooks !! i = Some h →
     fault env (now w + 1 + i) (deleteHook h) = None) →
  fault env (now w + 1 + length stale_hooks) createHook = Some e →
  ∃ w', confirmWebhookExists env me url events w = (inl e, w')
        ∧ hooks w' = filter (λ h, ¬ hook_has_url url h) (hooks w)
        ∧ filter (λ h, hook_has_url url h) (hooks w') = []
        ∧ calls w' = calls w ++ getHooks :: (deleteHook <$> stale_hooks)
                       ++ [createHook].
Proof.
  intros getHooks deleteHook createHook stale_hooks Hids Hnone Hlisted Hdeleted
    Hcreate.
  rewrite confirmWebhookExists_unfold. cbv zeta. fold getHooks createHook.
  rewrite Hlisted, Hnone. fold stale_hooks.
  assert (∀ j, now (log getHooks w) + j = now w + 1 + j) as Hnow.
  { intros j. unfold now, log. simpl. rewrite length_app. simpl. lia. }
  pose proof (async_parallel_removers_succeed env me stale_hooks (log getHooks w))
    as Hok.
  destruct (async_parallel_removers env me stale_hooks (log getHooks w))
    as (err & w1 & Hpar & Hcalls & _ & _ & Hkept & _ & _).
  rewrite Hpar in Hok |- *. simpl in Hok.
  assert (err = None) as ->.
  { apply Hok.
    - by apply NoDup_ids_filter.
    - intros st [_ Hst]%list_elem_of_filter. by apply list_elem_of_fmap_2.
    - intros i st Hi. rewrite Hnow. by apply Hdeleted. }
  specialize (Hkept eq_refl). simpl in Hkept.
  unfold stale_hooks in Hkept. rewrite filter_stale_ids in Hkept by done.
  assert (now w1 = now w + 1 + length stale_hooks) as ->.
  { unfold now. rewrite Hcalls. simpl. rewrite !length_app, length_fmap.
    simpl. lia. }
  rewrite Hcreate.
  assert (hooks w1 = filter (λ h, ¬ hook_has_url url h) (hooks w)) as Hhooks.
  { rewrite Hkept. apply filter_ext_in. intros h Hh.
    pose proof (proj1 (not_satisfied url events (hooks w)) Hnone h Hh) as Hs.
    unfold satisfied in Hs. unfold stale.
    destruct (hook_has_url url h), (arraysMatch _ _); simpl in *; try done;
      tauto. }
  eexists. split; [done|]. simpl. split; [done|]. split.
  - rewrite Hhooks, list_filter_filter. apply elem_of_nil_inv.
    intros h [[? ?] _]%list_elem_of_filter. done.
  - rewrite Hcalls. simpl. by rewrite <-!app_assoc.
Qed.

(** Both webhooks of [outdated] are deleted, the creation is refused, and
    the tools URL is left without a webhook. *)
Lemma confirmWebhookExists_failed_creation_leaves_none_witness :
  ∃ w', confirmWebhookExists uncreatable nupic tools_url ["pull_request"] outdated
        = (inl (TransportError 422), w')
        ∧ hooks w' = [].
Proof.
  assert (NoDup (hook_id <$> hooks outdated)) as Hids
    by (apply (bool_decide_unpack _); vm_compute; exact I).
  destruct (confirmWebhookExists_failed_creation_leaves_none
              uncreatable nupic tools_url ["pull_request"] outdated
              (TransportError 422) Hids eq_refl eq_refl)
    as (w' & Hrun & Hhooks & _).
  - intros i h _. reflexivity.
  - reflexivity.
  - exists w'. split; [exact Hrun | exact Hhooks].
Defined.

(** X10. Changing the wanted events replaces the webhook. From distinct
    ids, after a successful run for [events] and then a successful run for
    [events'], where [arraysMatch events events'] is false: exactly one
    webhook is registered for [url], it is named web and its events are
    [events'] as given. *)
Theorem confirmWebhookExists_new_events_replace
    (env : Provider) (me : RepositoryClient) (url : string)
    (events events' : list string) (w w1 w2 : World) :
  NoDup (hook_id <$> hooks w) →
  arraysMatch events events' = false →
  confirmWebhookExists env me url events w = (inr (), w1) →
  confirmWebhookExists env me url events' w1 = (inr (), w2) →
  ∃ h, filter (λ h, hook_has_url url h) (hooks w2) = [h]
       ∧ hook_name h = "web" ∧ hook_events h = events'.
Proof.
  intros Hids Hdiffer Hrun1 Hrun2.
  pose proof (confirmWebhookExists_keeps_distinct_ids _ _ _ _ _ _ _ Hids Hrun1)
    as Hids1.
  destruct (confirmWebhookExists_success_hooks env me url events w w1 Hids Hrun1)
    as (w' & Hkept & Hhooks1).
  (* after the first run, no webhook for [url] has the events [events'] *)
  assert (∀ old, old ∈ hooks w1 → hook_has_url url old = true →
            arraysMatch (hook_events old) events' = false) as Hold.
  { intros old Hin Hurl. apply not_true_iff_false. intros Hmatch.
    apply not_true_iff_false in Hdiffer. apply Hdiffer.
    rewrite Hhooks1, elem_of_app, Hkept, list_elem_of_filter in Hin.
    destruct Hin as [[Hst _]|Hin].
    - unfold stale in Hst. rewrite Hurl in Hst. simpl in Hst.
      destruct (arraysMatch (hook_events old) events) eqn:Hm; [|by destruct Hst].
      apply arraysMatch_true in Hm as [Hnd Hp].
      apply arraysMatch_true in Hmatch as [_ Hp'].
      apply arraysMatch_true. split; [by rewrite <-Hp|by rewrite <-Hp].
    - destruct (existsb _ _); [by apply elem_of_nil in Hin|].
      by apply list_elem_of_singleton in Hin as ->. }
  assert (existsb (satisfied url events') (hooks w1) = false) as Hnone.
  { apply not_satisfied. intros old Hin. unfold satisfied.
    destruct (hook_has_url url old) eqn:Hurl; [|done]. by rewrite Hold. }
  destruct (confirmWebhookExists_success_hooks env me url events' w1 w2 Hids1 Hrun2)
    as (w'' & Hkept2 & Hhooks2).
  rewrite Hnone in Hhooks2.
  exists (created_hook url events' w''). split; [|done].
  rewrite Hhooks2, filter_app, Hkept2, satisfied_among_kept.
  assert (filter (λ h, satisfied url events' h) (hooks w1) = []) as ->.
  { apply elem_of_nil_inv. intros h [Hs%Is_true_true Hh]%list_elem_of_filter.
    by rewrite (proj1 (not_satisfied url events' (hooks w1)) Hnone h Hh) in Hs. }
  simpl. rewrite filter_cons_True; [done|].
  unfold hook_has_url. simpl. by rewrite String.eqb_refl.
Qed.

(** The webhook for [push] becomes one for [push] and [status]. *)
Lemma confirmWebhookExists_new_events_replace_witness :
  let w := world_of [push_hook 1 ["push"]] 2 in
  let w1 := snd (confirmWebhookExists quiet nupic tools_url ["push"] w) in
  let w2 := snd (confirmWebhookExists quiet nupic tools_url ["push"; "status"] w1) in
  ∃ h, filter (λ h, hook_has_url tools_url h) (hooks w2) = [h]
       ∧ hook_events h = ["push"; "status"].
Proof.
  intros w w1 w2.
  assert (NoDup (hook_id <$> hooks w)) as Hids
    by (apply (bool_decide_unpack _); vm_compute; exact I).
  destruct (confirmWebhookExists_new_events_replace quiet nupic tools_url
              ["push"] ["push"; "status"] w w1 w2 Hids eq_refl eq_refl eq_refl)
    as (h & Hone & _ & Hevents).
  exists h. split; [exact Hone | exact Hevents].
Defined.

(** X11. A first registration. When no webhook is registered for [url], a
    successful run sends the listing and one creation, and adds one webhook
    after the existing ones: named web, for [url], with [events] as given,
    repeated names included, and an id above all ids in use. *)
Theorem confirmWebhookExists_first_registration
    (env : Provider) (me : RepositoryClient) (url : string)
    (events : list string) (w w1 : World) :
  (∀ h, h ∈ hooks w → hook_has_url url h = false) →
  confirmWebhookExists env me url events w = (inr (), w1) →
  hooks w1 = hooks w ++ [created_hook url events w]
  ∧ (∀ h, h ∈ hooks w → hook_id h < hook_id (created_hook url events w))
  ∧ calls w1 = calls w ++ [ReposGetHooks (org me) (repo me);
                           ReposCreateHook (org me) (repo me) "web" url events].
Proof.
  intros Hnone. rewrite confirmWebhookExists_unfold. cbv zeta.
  destruct (fault env (now w) _); [done|].
  assert (filter (λ h, stale url events h) (hooks w) = []) as ->.
  { apply elem_of_nil_inv. intros h [Hst Hh]%list_elem_of_filter.
    unfold stale in Hst. by rewrite (Hnone h Hh) in Hst. }
  assert (existsb (satisfied url events) (hooks w) = false) as ->.
  { apply not_satisfied. intros h Hh. unfold satisfied. by rewrite (Hnone h Hh). }
  simpl. unfold mret, M_ret.
  destruct (fault env _ _); [done|]. intros [= <-]. simpl.
  split; [done|]. split; [|by rewrite <-app_assoc].
  intros h Hh. by apply fresh_hook_id_above.
Qed.

Lemma confirmWebhookExists_first_registration_witness :
  hooks (snd (confirmWebhookExists quiet nupic tools_url ["push"; "push"]
                (world_of [other_hook] 6)))
  = [other_hook; push_hook 6 ["push"; "push"]].
Proof.
  destruct (confirmWebhookExists_first_registration quiet nupic tools_url
              ["push"; "push"] (world_of [other_hook] 6)
              (snd (confirmWebhookExists quiet nupic tools_url ["push"; "push"]
                      (world_of [other_hook] 6))))
    as [Hhooks _].
  - intros h ->%list_elem_of_singleton. reflexivity.
  - reflexivity.
  - exact Hhooks.
Defined.

(** ** The [issue_comment] handler, on a pull request *)

(** X12. For a comment on a pull request the handler looks up the last
    commit of the pull request with the issue's number. It does not look at
    the error of that lookup: with a commit that has a committer, it runs the
    validation of that commit's sha and committer login with the re-check
    flag set, and its outcome is the validation's; with no commit, or a
    commit without committer, it throws, the validation is not run and the
    callback is not invoked. *)
Theorem issueCommentHandler_pull_request_comment
    {Config Validator Report : Type}
    (getLastCommitOnPullRequest :
       RepositoryClient → N → M (option Error * option Commit))
    (performCompleteValidation :
       string → string → RepositoryClient → list Validator → bool →
       M (Outcome (option Report)))
    (payload : Payload) (config : Config) (repoClient : RepositoryClient)
    (validators : list Validator) (w : World) (links : PullRequestLinks) :
  pull_request (issue payload) = Some links →
  let prNumber := number (issue payload) in
  let lookup := getLastCommitOnPullRequest repoClient prNumber
                  (log (GetLastCommitOnPullRequest prNumber) w) in
  let run := issueCommentHandler getLastCommitOnPullRequest
               performCompleteValidation payload config repoClient validators w in
  (∀ commit who,
     snd (fst lookup) = Some commit → committer commit = Some who →
     run = performCompleteValidation (sha commit) (login who) repoClient
             validators true
             (log (PerformCompleteValidation (sha commit) (login who) true)
                (snd lookup)))
  ∧ (snd (fst lookup) = None
     ∨ (∃ commit, snd (fst lookup) = Some commit ∧ committer commit = None) →
     (∃ exn, run = (Throws exn, snd lookup))
     ∧ ∀ args, fst run ≠ Callback args).
Proof.
  intros Hpr prNumber lookup run. subst run. unfold issueCommentHandler.
  rewrite Hpr. unfold mbind, M_bind, mret, M_ret, invoke.
  fold prNumber. fold lookup.
  destruct lookup as [[err commit] w']. simpl. split.
  - intros c who -> Hwho. by rewrite Hwho.
  - intros [->|(c & -> & Hnone)]; [|rewrite Hnone]; (split; [by eexists|done]).
Qed.

(** A lookup that fails with a 404 and no commit: the handler throws. *)
Lemma issueCommentHandler_pull_request_comment_witness :
  ∃ exn,
    issueCommentHandler (Report := unit)
      (λ _ _ w, ((Some (TransportError 404), None), w))
      (λ _ _ _ (_ : list unit) _ w, (Callback (inr None), w))
      {| issue := {| number := 12;
                     pull_request := Some {| html_url := "http://pr/12" |} |} |}
      () nupic [] fresh_world
    = (Throws exn, log (GetLastCommitOnPullRequest 12) fresh_world).
Proof.
  destruct (issueCommentHandler_pull_request_comment (Report := unit)
              (λ _ _ w, ((Some (TransportError 404), None), w))
              (λ _ _ _ (_ : list unit) _ w, (Callback (inr None), w))
              {| issue := {| number := 12;
                             pull_request := Some {| html_url := "http://pr/12" |} |} |}
              () nupic [] fresh_world {| html_url := "http://pr/12" |} eq_refl)
    as [_ Hthrows].
  destruct Hthrows as [Hexn _]; [by left|]. exact Hexn.
Defined.
